(** * Heptapod B semagram generator: a shallow embedding of [script.js]

    The development follows the source top to bottom: the seeded generator
    [mulberry32], the string hash [hashStringToInt], the geometry helpers,
    the tokenizer [splitContentWords], the core generator
    [generateSegments], and the composite and blend layouts of the
    [HeptapodSemagramLab] component.

    Number model.  A JavaScript number is an IEEE-754 double.  The 32-bit
    integer operations ([Math.imul], [^], [|], [>>>]) are modelled exactly on
    [Z] with their wrap-around written out.  Every other number is modelled
    as an exact rational ([Q]): rounding of the double operations is not
    modelled, decimal literals denote their decimal value, and [Math.PI]
    is the rational value of the double 3.141592653589793.  [Math.cos],
    [Math.sin] and [Number.prototype.toFixed] belong to the engine and are
    kept abstract in the class [Engine].

    String model.  A string is a sequence of UTF-16 code units; the model
    covers the code units below 256, one per [ascii]. *)

From Stdlib Require Import ZArith QArith Qround Qminmax Qabs.
From Stdlib Require Import Bool String Ascii List Lia Lqa.
From Stdlib Require Import DecimalString DecimalNat.
Import ListNotations.

Local Open Scope Z_scope.

(** ** 32-bit integer operations *)

(** [ToUint32] and [ToInt32] of ECMAScript, on an integer-valued number. *)
Definition toUint32 (z : Z) : Z := z mod 4294967296.

Definition toInt32 (z : Z) : Z :=
  (z + 2147483648) mod 4294967296 - 2147483648.

(** [Math.imul(a, b)]. *)
Definition imul (a b : Z) : Z := toInt32 (toInt32 a * toInt32 b).

(** [a ^ b] and [a | b]: both operands go through [ToInt32]. *)
Definition xor32 (a b : Z) : Z := toInt32 (Z.lxor (toInt32 a) (toInt32 b)).

Definition or32 (a b : Z) : Z := toInt32 (Z.lor (toInt32 a) (toInt32 b)).

(** [a >>> n] for a shift count [0 <= n < 32]. *)
Definition ushr (a n : Z) : Z := Z.shiftr (toUint32 a) n.

(** ** Strings *)

Definition charCodeAt (c : ascii) : Z := Z.of_N (N_of_ascii c).

Definition charCodes (s : string) : list Z :=
  map charCodeAt (list_ascii_of_string s).

(** ** Seeded RNG (mulberry32)

    The closure returned by [mulberry32 a] owns the mutable number [a]; its
    state is that number.  [a += 0x6d2b79f5] is an addition of doubles, so
    [a] is not wrapped (it stays exact below 2^53, far beyond the few
    hundred draws of one generation); the wrap happens in the bit
    operations on [t]. *)

Definition Rng : Type := Z.

Definition mulberry32 (a : Z) : Rng := a.

(** The three lines that scramble [t] into an unsigned 32-bit integer. *)
Definition mulberryMix (t : Z) : Z :=
  let t := imul (xor32 t (ushr t 15)) (or32 t 1) in
  let t := xor32 t (t + imul (xor32 t (ushr t 7)) (or32 t 61)) in
  ushr (xor32 t (ushr t 14)) 0.

Definition mulberryStep : Z := 1831565813. (* 0x6d2b79f5 *)

(** One call of the closure: the number returned and the new state. *)
Definition mulberryNext (a : Rng) : Q * Rng :=
  let a' := a + mulberryStep in
  (inject_Z (mulberryMix a') / 4294967296, a')%Q.

(** ** String hash (FNV-1a, 32 bit) *)

(** One turn of the loop: [h ^= code; h = Math.imul(h, 16777619)]. *)
Definition hashStep (h c : Z) : Z := imul (xor32 h c) 16777619.

(** The hash as it reads its input, one code unit after the other;
    [(h >>> 0) || 1] at the end. *)
Definition hashCodeUnits (codes : list Z) : Z :=
  let h := fold_left hashStep codes 2166136261 in
  let u := ushr h 0 in
  if u =? 0 then 1 else u.

Definition hashStringToInt (str : string) : Z :=
  hashCodeUnits (charCodes str).

(** ** UI state *)

Inductive Perspective : Type := P1st | P2nd | P3rd.

Record SemagramParams : Type := {
  proposition : string;
  certainty : Q;
  modality : Q;
  temporality : Q;
  agency : Q;
  perspective : Perspective;
  negation : bool;
  hypothetical : bool;
  emphasis : Q;
  seed : string
}.

Local Open Scope Q_scope.
Local Open Scope string_scope.

Definition defaultParams : SemagramParams := {|
  proposition := "She was always there even before I knew her";
  certainty := 0.68;
  modality := 0.4;
  temporality := 0.82;
  agency := 0.55;
  perspective := P1st;
  negation := false;
  hypothetical := false;
  emphasis := 0.9;
  seed := "arrival"
|}.

(** ** Geometry helpers *)

Definition Math_PI : Q := 884279719003555 # 281474976710656.

Definition TAU : Q := Math_PI * 2.

Definition Math_floor (x : Q) : Q := inject_Z (Qfloor x).

Definition lerp (a b t : Q) : Q := a + (b - a) * t.

Definition clamp (n lo hi : Q) : Q := Qmax lo (Qmin hi n).

(** [a > b] on numbers. *)
Definition Qgtb (a b : Q) : bool := negb (Qle_bool a b).

(** The iterations of [for (let i = 0; i < bound; i++)]. *)
Definition loopCount (bound : Q) : nat := Z.to_nat (Qceiling bound).

Definition ofNat (n : nat) : Q := inject_Z (Z.of_nat n).

(** [arr[i]] for a number [i]: an element when [i] is an index inside the
    array, [undefined] ([None]) otherwise. *)
Definition arrayGet {A : Type} (arr : list A) (i : Q) : option A :=
  if Qeq_bool i (Math_floor i) && (0 <=? Qfloor i)%Z
  then nth_error arr (Z.to_nat (Qfloor i))
  else None.

Definition candidates : list Q := [7; 9; 11; 13; 17; 19].

(** Choose a prime-ish spoke count based on content words. *)
Definition chooseSpokes (wordCount : Q) : option Q :=
  let idx := clamp (Math_floor ((wordCount - 3) / 3)) 0
                   (ofNat (length candidates) - 1) in
  arrayGet candidates idx.

(** ** Tokenizer *)

Definition isUpperLatin1 (n : N) : bool :=
  ((65 <=? n) && (n <=? 90) || (192 <=? n) && (n <=? 222) && negb (n =? 215))%N.

(** [toLowerCase] on one code unit below 256. *)
Definition lowerChar (c : ascii) : ascii :=
  let n := N_of_ascii c in
  if isUpperLatin1 n then ascii_of_N (n + 32) else c.

Fixpoint toLowerCase (s : string) : string :=
  match s with
  | EmptyString => EmptyString
  | String c s' => String (lowerChar c) (toLowerCase s')
  end.

(** The character class [[a-z0-9']]. *)
Definition isWordChar (c : ascii) : bool :=
  let n := N_of_ascii c in
  ((97 <=? n) && (n <=? 122) || (48 <=? n) && (n <=? 57) || (n =? 39))%N.

(** [text.match(/[a-z0-9']+/g) || []]: the maximal runs of word characters,
    left to right.  [cur] is the run being read, reversed. *)
Fixpoint matchRuns (s : string) (cur : list ascii) : list string :=
  match s with
  | EmptyString =>
      match cur with
      | [] => []
      | _ => [string_of_list_ascii (rev cur)]
      end
  | String c s' =>
      if isWordChar c then matchRuns s' (c :: cur)
      else match cur with
           | [] => matchRuns s' []
           | _ => string_of_list_ascii (rev cur) :: matchRuns s' []
           end
  end.

Definition stopWords : list string :=
  ["the"; "a"; "an"; "and"; "or"; "but"; "is"; "was"; "am"; "are"].

Definition includes (l : list string) (w : string) : bool :=
  existsb (String.eqb w) l.

Definition splitContentWords (text : string) : list string :=
  filter (fun w => negb (includes stopWords w))
         (matchRuns (toLowerCase text) []).

(** [words.length || 1] as it is passed to [chooseSpokes]. *)
Definition wordCount (words : list string) : Q :=
  let n := ofNat (length words) in
  if Qeq_bool n 0 then 1 else n.

(** ** The engine's numeric primitives *)

Class Engine : Type := {
  Math_cos : Q -> Q;
  Math_sin : Q -> Q;
  (** [x.toFixed(digits)] *)
  toFixed : Q -> nat -> string
}.

(** ** Generated geometry *)

Record Point : Type := { pt_x : Q; pt_y : Q }.

Record Segment : Type := {
  seg_d : string;
  seg_w : Q;
  seg_dash : option string;
  seg_opacity : Q
}.

Record Connector : Type := {
  conn_x1 : Q;
  conn_y1 : Q;
  conn_x2 : Q;
  conn_y2 : Q;
  conn_w : Q;
  conn_opacity : Q
}.

Record Geometry : Type := {
  segments : list (list Segment);
  connectors : list (list Connector);
  rings : Q;
  spokes : option Q;
  radiusBase : Q;
  ringGap : Q
}.

(** ** A state monad for code that draws from a generator closure *)

Definition State (St A : Type) : Type := St -> A * St.

Definition ret {St A : Type} (a : A) : State St A := fun s => (a, s).

Definition bind {St A B : Type} (m : State St A) (f : A -> State St B)
  : State St B :=
  fun s => let r := m s in f (fst r) (snd r).

Notation "x <- m ;; k" := (bind m (fun x => k))
  (at level 61, m at next level, right associativity).

(** [for (let i = start; i < start + n; i++) out.push(body(i))] *)
Fixpoint forLoop {St A : Type} (n start : nat) (body : nat -> State St A)
  : State St (list A) :=
  match n with
  | O => ret []
  | S n' =>
      x <- body start ;;
      xs <- forLoop n' (S start) body ;;
      ret (x :: xs)
  end.

Section Generator.

Context {E : Engine}.

Definition polar (cx cy r ang : Q) : Point :=
  {| pt_x := cx + r * Math_cos ang; pt_y := cy + r * Math_sin ang |}.

Definition arcPath (cx cy r a0 a1 : Q) : string :=
  let start := polar cx cy r a0 in
  let end_ := polar cx cy r a1 in
  let large := if Qgtb (Qabs (a1 - a0)) Math_PI then "1" else "0" in
  let sweep := if Qgtb a1 a0 then "1" else "0" in
  "M " ++ toFixed (pt_x start) 3 ++ " " ++ toFixed (pt_y start) 3
    ++ " A " ++ toFixed r 3 ++ " " ++ toFixed r 3
    ++ " 0 " ++ large ++ " " ++ sweep ++ " "
    ++ toFixed (pt_x end_) 3 ++ " " ++ toFixed (pt_y end_) 3.

(** Stroke width encodes certainty and emphasis, slight inward taper
    with the ring index [i] (line 116). *)
Definition strokeWidth (p : SemagramParams) (i : nat) : Q :=
  clamp (lerp 1.2 5.5 (certainty p) * lerp 0.8 1.15 (emphasis p)
         * (1 - ofNat i * 0.03)) 0.8 7.

(** Dashed pattern toggles: negation and hypothetical (lines 119-122). *)
Definition dashPattern (p : SemagramParams) : option string :=
  let c := certainty p in
  if negation p && hypothetical p then
    Some (toFixed (lerp 2 6 c) 1 ++ " " ++ toFixed (lerp 1 3 (1 - c)) 1)
  else if negation p then
    Some (toFixed (lerp 4 9 (1 - c)) 1 ++ " " ++ toFixed (lerp 2 4 c) 1)
  else if hypothetical p then
    Some (toFixed (lerp 1.5 4 (1 - c)) 1 ++ " " ++ toFixed (lerp 1 3 c) 1)
  else None.

(** Perspective subtly rotates the ring (line 125). *)
Definition perspRot (p : SemagramParams) : Q :=
  match perspective p with
  | P1st => 0
  | P2nd => 0.12
  | P3rd => -0.12
  end.

(** The loop bound [s < spokes] and the divisor [spokes]; with [spokes]
    undefined the comparison is false and the body never runs. *)
Definition spokeLoop (spokes : option Q) : nat :=
  match spokes with
  | Some k => loopCount k
  | None => O
  end.

Definition spokeNum (spokes : option Q) : Q :=
  match spokes with
  | Some k => k
  | None => 0
  end.

Section Draws.

(** [rnd] is the closure the generator draws from; [St] is its state. *)
Context {St : Type} (rnd : State St Q).

(** Body of the inner loop of the ring loop (lines 108-130). *)
Definition segmentBody (p : SemagramParams) (spokes : option Q)
           (r bias : Q) (i s : nat) : State St Segment :=
  let a0 := (TAU * ofNat s) / spokeNum spokes + bias * 0.2 in
  u1 <- rnd ;;
  let jitter := (u1 - 0.5) * (0.25 + temporality p * 0.35) in
  let span := lerp 0.7 1.55 (temporality p) + jitter in
  u2 <- rnd ;;
  let direction := if Qgtb u2 0.5 then 1 else -1 in
  let a1 := a0 + span * direction in
  let w := strokeWidth p i in
  let dash := dashPattern p in
  let d := arcPath 0 0 r (a0 + perspRot p) (a1 + perspRot p) in
  u3 <- rnd ;;
  let opacity := 0.7 + (u3 - 0.5) * 0.1 + (agency p - 0.5) * 0.1 in
  ret {| seg_d := d; seg_w := w; seg_dash := dash;
         seg_opacity := clamp opacity 0.45 1 |}.

(** Body of the ring loop (lines 101-133). *)
Definition ringBody (p : SemagramParams) (spokes : option Q)
           (radiusBase ringGap : Q) (i : nat) : State St (list Segment) :=
  let r := radiusBase + ofNat i * ringGap in
  u <- rnd ;;
  let bias := lerp (-0.6) 0.6 (modality p) + (u - 0.5) * 0.2 in
  forLoop (spokeLoop spokes) 0 (segmentBody p spokes r bias i).

(** Body of the inner loop of the connector loop (lines 143-146). *)
Definition connectorBody (p : SemagramParams) (spokes : option Q)
           (r0 r1 : Q) (s : nat) : State St Connector :=
  u <- rnd ;;
  let a := (TAU * ofNat s) / spokeNum spokes + (u - 0.5) * 0.03 in
  let p0 := polar 0 0 r0 a in
  let p1 := polar 0 0 r1 a in
  ret {| conn_x1 := pt_x p0; conn_y1 := pt_y p0;
         conn_x2 := pt_x p1; conn_y2 := pt_y p1;
         conn_w := lerp 0.6 2.2 (certainty p);
         conn_opacity := 0.25 + temporality p * 0.25 |}.

(** Body of the connector loop (lines 139-148). *)
Definition connectorRing (p : SemagramParams) (spokes : option Q)
           (radiusBase ringGap : Q) (i : nat) : State St (list Connector) :=
  let r0 := radiusBase + ofNat i * ringGap in
  let r1 := radiusBase + (ofNat i + 1) * ringGap in
  forLoop (spokeLoop spokes) 0 (connectorBody p spokes r0 r1).

(** [generateSegments] from the creation of [rnd] on (lines 90-151);
    [words] is the result of [splitContentWords]. *)
Definition geometry (p : SemagramParams) (words : list string)
  : State St Geometry :=
  u1 <- rnd ;;
  let rings := clamp (3 + Math_floor (temporality p * 3 + u1 * 2)) 3 7 in
  let spokes := chooseSpokes (wordCount words) in
  let radiusBase := 100 in
  u2 <- rnd ;;
  let ringGap := 28 + u2 * 6 in
  segments <- forLoop (loopCount rings) 0
                      (ringBody p spokes radiusBase ringGap) ;;
  connectors <- forLoop (loopCount (rings - 1)) 0
                        (connectorRing p spokes radiusBase ringGap) ;;
  ret {| segments := segments; connectors := connectors;
         rings := rings; spokes := spokes;
         radiusBase := radiusBase; ringGap := ringGap |}.

End Draws.

Definition baseSeed (p : SemagramParams) : Z :=
  hashStringToInt (seed p ++ "|" ++ proposition p).

(** The core generator. *)
Definition generateSegments (p : SemagramParams) : Geometry :=
  let rnd := mulberryNext in
  let words := splitContentWords (proposition p) in
  fst (geometry rnd p words (mulberry32 (baseSeed p))).

End Generator.

(** ** Composite and blend layouts of [HeptapodSemagramLab] *)

(** White space removed by [trim], among the code units below 256. *)
Definition isWhiteSpace (c : ascii) : bool :=
  let n := N_of_ascii c in
  ((9 <=? n) && (n <=? 13) || (n =? 32) || (n =? 160))%N.

Fixpoint trimStart (s : string) : string :=
  match s with
  | EmptyString => EmptyString
  | String c s' => if isWhiteSpace c then trimStart s' else s
  end.

Definition reverse (s : string) : string :=
  string_of_list_ascii (rev (list_ascii_of_string s)).

Definition trim (s : string) : string :=
  reverse (trimStart (reverse (trimStart s))).

Definition isNewline (c : ascii) : bool := (N_of_ascii c =? 10)%N.

(** [text.split(/\n+/)]: [cur] is the piece being read, reversed;
    [inSep] tells that the previous character was part of a separator. *)
Fixpoint splitNewlines (s : string) (cur : list ascii) (inSep : bool)
  : list string :=
  match s with
  | EmptyString => [string_of_list_ascii (rev cur)]
  | String c s' =>
      if isNewline c then
        if inSep then splitNewlines s' [] true
        else string_of_list_ascii (rev cur) :: splitNewlines s' [] true
      else splitNewlines s' (c :: cur) false
  end.

Definition isNonEmpty (s : string) : bool :=
  match s with
  | EmptyString => false
  | String _ _ => true
  end.

(** The [clauses] memo in composite mode. *)
Definition clausesOf (text : string) : list string :=
  filter isNonEmpty (map trim (splitNewlines text [] false)).

Definition palette : list string :=
  ["#fafafa"; "#d1d5db"; "#a3a3a3"; "#e5e7eb"; "#cbd5e1"].

(** The decimal text of an index, as in [p.seed + ':' + i]. *)
Definition indexText (i : nat) : string :=
  NilEmpty.string_of_uint (Nat.to_uint i).

(** An SVG group [<g transform=... opacity=...>] around one semagram:
    [rotate(layer_rotate)] in degrees, then [scale(layer_scale)] when the
    transform has one. *)
Record Layer : Type := {
  layer_rotate : Q;
  layer_scale : option Q;
  layer_opacity : Q;
  layer_glyph : Geometry;
  layer_params : SemagramParams;
  layer_color : string
}.

Record BlendScene : Type := {
  blend_A : Layer;
  blend_B : Layer;
  center_r : Q;
  center_opacity : Q
}.

(** [array.map((x, i) => f(x, i))], counting from [start]. *)
Fixpoint mapi {A B : Type} (f : A -> nat -> B) (l : list A) (start : nat)
  : list B :=
  match l with
  | [] => []
  | x :: l' => f x start :: mapi f l' (S start)
  end.

(** [rot] of the layer at index [i] among [n] clauses (line 394). *)
Definition compositeRot (i n : nat) : Q := (ofNat i * TAU) / (ofNat n * 7).

Definition compositeScale (i : nat) : Q := 1 - ofNat i * 0.06.

Definition compositeOpacity (i : nat) : Q := 1 - ofNat i * 0.07.

Section Layouts.

Context {E : Engine}.

(** [{ ...p, proposition: clause, seed: p.seed + ':' + i }] *)
Definition clauseParams (p : SemagramParams) (clause : string) (i : nat)
  : SemagramParams :=
  {| proposition := clause;
     certainty := certainty p;
     modality := modality p;
     temporality := temporality p;
     agency := agency p;
     perspective := perspective p;
     negation := negation p;
     hypothetical := hypothetical p;
     emphasis := emphasis p;
     seed := seed p ++ ":" ++ indexText i |}.

(** One iteration of [clauses.map] (lines 391-402). *)
Definition compositeLayer (p : SemagramParams) (n : nat)
           (clause : string) (i : nat) : Layer :=
  let tParams := clauseParams p clause i in
  let g := generateSegments tParams in
  let rot := compositeRot i n in
  let scale := compositeScale i in
  let col := nth (i mod length palette) palette "" in
  {| layer_rotate := (rot * 180) / Math_PI;
     layer_scale := Some scale;
     layer_opacity := compositeOpacity i;
     layer_glyph := g;
     layer_params := tParams;
     layer_color := col |}.

(** What the canvas holds in composite mode. *)
Definition renderComposite (p : SemagramParams) : list Layer :=
  let clauses := clausesOf (proposition p) in
  mapi (compositeLayer p (length clauses)) clauses 0.

(** What the canvas holds in blend mode (lines 406-417). *)
Definition renderBlend (p p2 : SemagramParams) (blend : Q) : BlendScene :=
  {| blend_A := {| layer_rotate := -15;
                   layer_scale := None;
                   layer_opacity := 1 - blend * 0.65;
                   layer_glyph := generateSegments p;
                   layer_params := p;
                   layer_color := "#e5e7eb" |};
     blend_B := {| layer_rotate := 15;
                   layer_scale := None;
                   layer_opacity := 0.35 + blend * 0.65;
                   layer_glyph := generateSegments p2;
                   layer_params := p2;
                   layer_color := "#cbd5e1" |};
     center_r := lerp 8 18 ((agency p + agency p2) / 2);
     center_opacity := 0.25 + blend * 0.35 |}.

End Layouts.

(** ** Integer views used in the statements *)

(** The index computed by [chooseSpokes], as an integer. *)
Definition spokeIndex (wordCount : Q) : Z :=
  Z.max 0 (Z.min 5 (Qfloor ((wordCount - 3) / 3))).

(** ** Streams and worlds used in the statements *)

(** [R] relates the states of two closures; two computations are similar
    when, from related states, they return the same value and leave
    related states behind. *)
Definition sim {St1 St2 A : Type} (R : St1 -> St2 -> Prop)
           (m1 : State St1 A) (m2 : State St2 A) : Prop :=
  forall s1 s2, R s1 s2 ->
    fst (m1 s1) = fst (m2 s2) /\ R (snd (m1 s1)) (snd (m2 s2)).

(** The number returned by draw number [k] (counting from 0) of the closure
    [mulberry32 s], written without any state. *)
Definition drawAt (s : Z) (k : nat) : Q :=
  fst (mulberryNext (s + Z.of_nat k * mulberryStep)%Z).

(** A closure that reads a fixed table of numbers; its state is the
    position in the table. *)
Definition tableStream (table : nat -> Q) : State nat Q :=
  fun k => (table k, S k).

(** A world in which two closures are alive: a computation that draws from
    the first one, and one that draws from the second one. *)
Definition onFirst {S1 S2 : Type} (rnd : State S1 Q) : State (S1 * S2) Q :=
  fun w => let r := rnd (fst w) in (fst r, (snd r, snd w)).

Definition onSecond {S1 S2 : Type} (rnd : State S2 Q) : State (S1 * S2) Q :=
  fun w => let r := rnd (snd w) in (fst r, (fst w, snd r)).

(** The radius of ring [i] (lines 101 and 139). *)
Definition ringRadius (g : Geometry) (i : nat) : Q :=
  radiusBase g + ofNat i * ringGap g.

(** The ring count as an integer, from the temporality and the first
    draw [u]. *)
Definition ringCount (t u : Q) : Z :=
  Z.max 3 (Z.min 7 (3 + Qfloor (t * 3 + u * 2))).

(** An engine to run the model on examples: Taylor polynomials for the
    trigonometric functions and exact decimal rounding for [toFixed]
    (ties go to the larger digit string, the sign is kept). *)
Definition decimalText (z : Z) : string :=
  NilEmpty.string_of_uint (N.to_uint (Z.to_N z)).

Fixpoint zeros (n : nat) : string :=
  match n with
  | O => ""
  | S n' => "0" ++ zeros n'
  end.

Definition padZeros (width : nat) (s : string) : string :=
  zeros (width - String.length s) ++ s.

Definition toFixedDecimal (x : Q) (digits : nat) : string :=
  let scale := (10 ^ Z.of_nat digits)%Z in
  let n := Qfloor (Qabs x * inject_Z scale + 0.5) in
  let sign := if Qgtb 0 x then "-" else "" in
  let frac := if (digits =? 0)%nat then ""
              else "." ++ padZeros digits (decimalText (n mod scale)) in
  sign ++ decimalText (n / scale) ++ frac.

Definition polyEngine : Engine := {|
  Math_cos := fun x => 1 - x * x / 2 + x * x * x * x / 24;
  Math_sin := fun x => x - x * x * x / 6;
  toFixed := toFixedDecimal
|}.

(** The segment at spoke [s] of ring [i]. *)
Definition segmentAt (g : Geometry) (i s : nat) (seg : Segment) : Prop :=
  exists ring, nth_error (segments g) i = Some ring
               /\ nth_error ring s = Some seg.

(** A scalar of the parameter vector inside its slider range. *)
Definition inUnit (x : Q) : Prop := 0 <= x <= 1.

(** The number of draws a computation makes from a table: [c] whatever the
    position it starts at. *)
Definition uses {A : Type} (m : State nat A) (c : nat) : Prop :=
  forall k, snd (m k) = (k + c)%nat.

(** Two requests carry the same parameter vector (the eight semantic
    parameters; the seed text and the proposition are not part of it). *)
Definition sameVector (p1 p2 : SemagramParams) : Prop :=
  certainty p1 = certainty p2
  /\ modality p1 = modality p2
  /\ temporality p1 = temporality p2
  /\ agency p1 = agency p2
  /\ perspective p1 = perspective p2
  /\ negation p1 = negation p2
  /\ hypothetical p1 = hypothetical p2
  /\ emphasis p1 = emphasis p2.

(** [defaultParams] with another proposition and seed text. *)
Definition request (text seedText : string) : SemagramParams :=
  {| proposition := text;
     certainty := certainty defaultParams;
     modality := modality defaultParams;
     temporality := temporality defaultParams;
     agency := agency defaultParams;
     perspective := perspective defaultParams;
     negation := negation defaultParams;
     hypothetical := hypothetical defaultParams;
     emphasis := emphasis defaultParams;
     seed := seedText |}.

Definition newline : string := String "010"%char EmptyString.

(** ** Further statement-level definitions *)

(** [n] successive calls of a closure, results in call order. *)
Definition callTimes {St : Type} (n : nat) (rnd : State St Q)
  : State St (list Q) :=
  forLoop n 0 (fun _ => rnd).

(** The state of the hash loop after reading a list of code units. *)
Definition hashState (codes : list Z) : Z :=
  fold_left hashStep codes 2166136261%Z.

(** [{ ...p, seed: seedText }] *)
Definition withSeed (p : SemagramParams) (seedText : string) : SemagramParams :=
  {| proposition := proposition p;
     certainty := certainty p;
     modality := modality p;
     temporality := temporality p;
     agency := agency p;
     perspective := perspective p;
     negation := negation p;
     hypothetical := hypothetical p;
     emphasis := emphasis p;
     seed := seedText |}.

(** The spoke count as a step function of the number of content words. *)
Definition spokesFor (n : nat) : Q :=
  if (n <? 6)%nat then 7
  else if (n <? 9)%nat then 9
  else if (n <? 12)%nat then 11
  else if (n <? 15)%nat then 13
  else if (n <? 18)%nat then 17
  else 19.

(** The characters of a string. *)
Definition chars (s : string) : list ascii := list_ascii_of_string s.

(** The connector at spoke [s] of the connector ring [i]. *)
Definition connectorAt (g : Geometry) (i s : nat) (c : Connector) : Prop :=
  exists conns, nth_error (connectors g) i = Some conns
                /\ nth_error conns s = Some c.

(** The position, among the draws of one generation, of the bias draw of
    ring [i], of the first of the three draws of segment [s] of ring [i],
    and of the draw of connector [s] of connector ring [i]; [nRings] and
    [nSpokes] are the loop counts. *)
Definition biasDraw (nSpokes i : nat) : nat := 2 + i * (1 + nSpokes * 3).

Definition segmentDraw (nSpokes i s : nat) : nat :=
  biasDraw nSpokes i + 1 + s * 3.

Definition connectorDraw (nRings nSpokes i s : nat) : nat :=
  2 + nRings * (1 + nSpokes * 3) + i * nSpokes + s.

(** [{ ...p, agency: a }] *)
Definition withAgency (p : SemagramParams) (a : Q) : SemagramParams :=
  {| proposition := proposition p;
     certainty := certainty p;
     modality := modality p;
     temporality := temporality p;
     agency := a;
     perspective := perspective p;
     negation := negation p;
     hypothetical := hypothetical p;
     emphasis := emphasis p;
     seed := seed p |}.

(** ** Download helper: the text handed to the browser

    [XMLSerializer], [Blob] and the DOM belong to the browser; what
    [downloadSVG] itself computes is the text of the file from the
    serialized element. *)

Definition quote : string := String "034"%char EmptyString.

(** One position of a regular expression without repetition: a literal
    character or the wildcard [.], which matches any character but a line
    terminator. *)
Inductive PatChar : Type :=
  | Lit (c : ascii)
  | AnyChar.

Definition isLineTerminator (c : ascii) : bool :=
  let n := N_of_ascii c in ((n =? 10) || (n =? 13))%N.

Definition matchChar (pc : PatChar) (c : ascii) : bool :=
  match pc with
  | Lit a => Ascii.eqb a c
  | AnyChar => negb (isLineTerminator c)
  end.

(** The pattern matches at the start of [s]. *)
Fixpoint matchPattern (pat : list PatChar) (s : string) : bool :=
  match pat with
  | [] => true
  | pc :: pat' =>
      match s with
      | EmptyString => false
      | String c s' => matchChar pc c && matchPattern pat' s'
      end
  end.

Definition literal (s : string) : list PatChar :=
  map Lit (list_ascii_of_string s).

(** The tail of the regular expression of line 159, the quoted namespace
    attribute; its two dots are not escaped and so are wildcards. *)
Definition xmlnsPattern : list PatChar :=
  (literal ("xmlns=" ++ quote ++ "http://www") ++ [AnyChar]
   ++ literal "w3" ++ [AnyChar]
   ++ literal ("org/2000/svg" ++ quote))%list.

Definition isGt (c : ascii) : bool := (N_of_ascii c =? 62)%N.

(** [[^>]+] followed by the pattern: one or more characters other than
    [>], then the pattern. *)
Fixpoint scanNamespace (s : string) : bool :=
  match s with
  | EmptyString => false
  | String c s' =>
      if isGt c then false
      else matchPattern xmlnsPattern s' || scanNamespace s'
  end.

Fixpoint stripPrefix (pre s : string) : option string :=
  match pre with
  | EmptyString => Some s
  | String a pre' =>
      match s with
      | EmptyString => None
      | String c s' => if Ascii.eqb a c then stripPrefix pre' s' else None
      end
  end.

(** The [source.match(...)] of line 159 is not [null]: the text starts with
    [<svg], goes on with one or more characters other than [>], then with
    the namespace attribute. *)
Definition hasNamespace (source : string) : bool :=
  match stripPrefix "<svg" source with
  | Some rest => scanNamespace rest
  | None => false
  end.

Definition svgNamespaceTag : string :=
  "<svg xmlns=" ++ quote ++ "http://www.w3.org/2000/svg" ++ quote.

(** Lines 159-161: [source.replace(/^<svg/, '<svg xmlns=...')] unless the
    declaration is found. *)
Definition addNamespace (source : string) : string :=
  if hasNamespace source then source
  else match stripPrefix "<svg" source with
       | Some rest => svgNamespaceTag ++ rest
       | None => source
       end.

Definition xmlProlog : string :=
  "<?xml version=" ++ quote ++ "1.0" ++ quote
    ++ " standalone=" ++ quote ++ "no" ++ quote ++ "?>" ++ newline.

(** The text and the name of the downloaded file; [current] is the
    serialization of [svgRef.current], [None] when the reference is
    empty (nothing is downloaded then). *)
Definition downloadSVG (current : option string) (name : string)
  : option (string * string) :=
  match current with
  | None => None
  | Some source => Some (xmlProlog ++ addNamespace source, name)
  end.

(** ** The [SemagramSVG] component

    The SVG elements it returns, with the attributes that vary. *)

Record LineEl : Type := {
  line_x1 : Q;
  line_y1 : Q;
  line_x2 : Q;
  line_y2 : Q;
  line_stroke : string;
  line_strokeWidth : Q;
  line_opacity : Q
}.

Record PathEl : Type := {
  path_d : string;
  path_stroke : string;
  path_strokeWidth : Q;
  path_strokeDasharray : option string;
  path_opacity : Q
}.

(** [fill] and [stroke] are [None] where the element has [fill="none"] or
    no stroke. *)
Record CircleEl : Type := {
  circle_r : Q;
  circle_fill : option string;
  circle_stroke : option string;
  circle_opacity : Q
}.

(** [<g key=conn-i opacity=...>] with its lines. *)
Record ConnectorGroup : Type := {
  group_opacity : Q;
  group_lines : list LineEl
}.

Record SemagramEl : Type := {
  el_connectors : list ConnectorGroup;
  el_rings : list (list PathEl);
  el_center : CircleEl;
  el_halo : option CircleEl
}.

Definition lineOf (color : string) (c : Connector) : LineEl :=
  {| line_x1 := conn_x1 c; line_y1 := conn_y1 c;
     line_x2 := conn_x2 c; line_y2 := conn_y2 c;
     line_stroke := color;
     line_strokeWidth := conn_w c;
     line_opacity := conn_opacity c |}.

Definition pathOf (color : string) (seg : Segment) : PathEl :=
  {| path_d := seg_d seg;
     path_stroke := color;
     path_strokeWidth := seg_w seg;
     path_strokeDasharray := seg_dash seg;
     path_opacity := seg_opacity seg |}.

(** [ring[0]?.opacity ?? 0.3] *)
Definition firstOpacity (ring : list Connector) : Q :=
  match ring with
  | c :: _ => conn_opacity c
  | [] => 0.3
  end.

Definition isFirstPerson (v : Perspective) : bool :=
  match v with
  | P1st => true
  | _ => false
  end.

Definition SemagramSVG (glyph : Geometry) (params : SemagramParams)
           (color : string) : SemagramEl :=
  {| el_connectors :=
       map (fun ring => {| group_opacity := firstOpacity ring;
                           group_lines := map (lineOf color) ring |})
           (connectors glyph);
     el_rings := map (map (pathOf color)) (segments glyph);
     el_center := {| circle_r := lerp 6 16 (agency params);
                     circle_fill := Some color;
                     circle_stroke := None;
                     circle_opacity := 0.28 + agency params * 0.35 |};
     el_halo :=
       if isFirstPerson (perspective params) then None
       else Some {| circle_r := lerp 12 22 (agency params);
                    circle_fill := None;
                    circle_stroke := Some color;
                    circle_opacity := 0.18 |} |}.

(** ** The state of [HeptapodSemagramLab] and its event handlers

    One event is handled per render, so that the [p] and [p2] a handler
    closes over are the current ones.  A range input with [min=0], [max=1]
    and [step=0.01] yields the texts of [k/100] for [0 <= k <= 100];
    [randomSeed] is the browser's [Math.random], its two results are part
    of the event. *)

Inductive Mode : Type := MSingle | MComposite | MBlend.

Record UiState : Type := {
  ui_mode : Mode;
  ui_p : SemagramParams;
  ui_p2 : SemagramParams;
  ui_blend : Q
}.

(** [{ ...p, proposition: text }] *)
Definition withProposition (p : SemagramParams) (text : string) : SemagramParams :=
  {| proposition := text;
     certainty := certainty p;
     modality := modality p;
     temporality := temporality p;
     agency := agency p;
     perspective := perspective p;
     negation := negation p;
     hypothetical := hypothetical p;
     emphasis := emphasis p;
     seed := seed p |}.

(** [{ ...defaultParams, proposition: ..., seed: "return" }] *)
Definition secondParams : SemagramParams :=
  request "I only recognized her when time curved back" "return".

Definition initialState : UiState :=
  {| ui_mode := MSingle; ui_p := defaultParams; ui_p2 := secondParams;
     ui_blend := 0.5 |}.

Inductive SliderName : Type :=
  | Certainty | Modality | Temporality | Agency | Emphasis.

(** [{ ...p, <name>: v }] for one of the five shared sliders. *)
Definition withSlider (p : SemagramParams) (which : SliderName) (v : Q)
  : SemagramParams :=
  {| proposition := proposition p;
     certainty := match which with Certainty => v | _ => certainty p end;
     modality := match which with Modality => v | _ => modality p end;
     temporality := match which with Temporality => v | _ => temporality p end;
     agency := match which with Agency => v | _ => agency p end;
     perspective := perspective p;
     negation := negation p;
     hypothetical := hypothetical p;
     emphasis := match which with Emphasis => v | _ => emphasis p end;
     seed := seed p |}.

Definition withFlags (p : SemagramParams) (v : Perspective) (neg hyp : bool)
  : SemagramParams :=
  {| proposition := proposition p;
     certainty := certainty p;
     modality := modality p;
     temporality := temporality p;
     agency := agency p;
     perspective := v;
     negation := neg;
     hypothetical := hyp;
     emphasis := emphasis p;
     seed := seed p |}.

Inductive Event : Type :=
  | ClickDownload
  | ClickCopy
  | ClickRandomize (seed1 seed2 : string)
  | ClickReset
  | ClickMode (m : Mode)
  | EditProposition (text : string)
  | EditPropositionB (text : string)
  | MoveBlend (k : nat)
  | MoveSlider (which : SliderName) (k : nat)
  | SelectPerspective (v : Perspective)
  | EditSeed (text : string)
  | CheckNegation (b : bool)
  | CheckHypothetical (b : bool).

(** The value of a range input at position [k]. *)
Definition sliderValue (k : nat) : Q := ofNat k / 100.

Definition isBlend (m : Mode) : bool :=
  match m with
  | MBlend => true
  | _ => false
  end.

Definition setP (st : UiState) (p : SemagramParams) : UiState :=
  {| ui_mode := ui_mode st; ui_p := p; ui_p2 := ui_p2 st; ui_blend := ui_blend st |}.

(** The state after an event; [None] when the page cannot raise the event
    (a control that the mode does not show, a slider position beyond the
    range). *)
Definition handle (st : UiState) (ev : Event) : option UiState :=
  let p := ui_p st in
  match ev with
  | ClickDownload | ClickCopy => Some st
  | ClickRandomize seed1 seed2 =>
      Some {| ui_mode := ui_mode st;
              ui_p := withSeed p seed1;
              ui_p2 := withSeed (ui_p2 st) seed2;
              ui_blend := ui_blend st |}
  | ClickReset => Some initialState
  | ClickMode m =>
      Some {| ui_mode := m; ui_p := p; ui_p2 := ui_p2 st;
              ui_blend := ui_blend st |}
  | EditProposition text => Some (setP st (withProposition p text))
  | EditPropositionB text =>
      if isBlend (ui_mode st)
      then Some {| ui_mode := ui_mode st; ui_p := p;
                   ui_p2 := withProposition (ui_p2 st) text;
                   ui_blend := ui_blend st |}
      else None
  | MoveBlend k =>
      if isBlend (ui_mode st) && (k <=? 100)%nat
      then Some {| ui_mode := ui_mode st; ui_p := p; ui_p2 := ui_p2 st;
                   ui_blend := sliderValue k |}
      else None
  | MoveSlider which k =>
      if (k <=? 100)%nat then Some (setP st (withSlider p which (sliderValue k)))
      else None
  | SelectPerspective v =>
      Some (setP st (withFlags p v (negation p) (hypothetical p)))
  | EditSeed text => Some (setP st (withSeed p text))
  | CheckNegation b =>
      Some (setP st (withFlags p (perspective p) b (hypothetical p)))
  | CheckHypothetical b =>
      Some (setP st (withFlags p (perspective p) (negation p) b))
  end.

Fixpoint run (st : UiState) (events : list Event) : option UiState :=
  match events with
  | [] => Some st
  | ev :: rest =>
      match handle st ev with
      | Some st' => run st' rest
      | None => None
      end
  end.

(** What the canvas shows, by mode (lines 385-418). *)
Inductive Canvas : Type :=
  | CanvasSingle (glyph : Geometry) (params : SemagramParams) (color : string)
  | CanvasComposite (layers : list Layer)
  | CanvasBlend (scene : BlendScene).

Definition canvas {E : Engine} (st : UiState) : Canvas :=
  match ui_mode st with
  | MSingle => CanvasSingle (generateSegments (ui_p st)) (ui_p st) "#fafafa"
  | MComposite => CanvasComposite (renderComposite (ui_p st))
  | MBlend => CanvasBlend (renderBlend (ui_p st) (ui_p2 st) (ui_blend st))
  end.

(** The [glyph] and [params] of every [SemagramSVG] on the canvas, in
    document order. *)
Definition shown (c : Canvas) : list (Geometry * SemagramParams) :=
  match c with
  | CanvasSingle glyph params _ => [(glyph, params)]
  | CanvasComposite layers =>
      map (fun l => (layer_glyph l, layer_params l)) layers
  | CanvasBlend scene =>
      [(layer_glyph (blend_A scene), layer_params (blend_A scene));
       (layer_glyph (blend_B scene), layer_params (blend_B scene))]
  end.

(** The five sliders of a parameter record are inside their range. *)
Definition slidersInRange (p : SemagramParams) : Prop :=
  inUnit (certainty p) /\ inUnit (modality p) /\ inUnit (temporality p)
  /\ inUnit (agency p) /\ inUnit (emphasis p).

(** The invariant of the reachable states. *)
Definition wellFormed (st : UiState) : Prop :=
  sameVector (ui_p2 st) defaultParams
  /\ inUnit (certainty (ui_p st))
  /\ inUnit (modality (ui_p st))
  /\ inUnit (temporality (ui_p st))
  /\ inUnit (agency (ui_p st))
  /\ inUnit (emphasis (ui_p st))
  /\ inUnit (ui_blend st).

(** * Properties *)

(** ** The model on concrete inputs *)

(** FNV-1a test vectors (0x811c9dc5, 0xe40c292c, 0xbf9cf968). *)
Example hash_vectors :
  hashStringToInt "" = 2166136261%Z
  /\ hashStringToInt "a" = 3826002220%Z
  /\ hashStringToInt "foobar" = 3214735720%Z.
Proof. repeat split. Qed.

Example split_the_cat_sat : splitContentWords "the cat sat" = ["cat"; "sat"].
Proof. reflexivity. Qed.

Example split_default :
  splitContentWords (proposition defaultParams)
  = ["she"; "always"; "there"; "even"; "before"; "i"; "knew"; "her"].
Proof. reflexivity. Qed.

Example split_apostrophes :
  splitContentWords "Don't panic, it's AN 'A'" = ["don't"; "panic"; "it's"; "'a'"].
Proof. reflexivity. Qed.

Example chooseSpokes_table :
  map (fun n => chooseSpokes (ofNat n)) [0; 1; 5; 6; 9; 12; 15; 18; 40]%nat
  = map Some [7; 7; 7; 9; 11; 13; 17; 19; 19].
Proof. reflexivity. Qed.

Example clauses_of_blank_lines :
  clausesOf (newline ++ " A  " ++ newline ++ newline ++ "  " ++ newline ++ "B c")
  = ["A"; "B c"].
Proof. reflexivity. Qed.

Example default_shape :
  let g := @generateSegments polyEngine defaultParams in
  rings g = 5 /\ spokes g = Some 9
  /\ map (@length Segment) (segments g) = [9; 9; 9; 9; 9]%nat
  /\ map (@length Connector) (connectors g) = [9; 9; 9; 9]%nat.
Proof. vm_compute. repeat split. Qed.

(** ** 32-bit operations stay in range *)

Lemma toUint32_range (z : Z) : (0 <= toUint32 z < 4294967296)%Z.
Proof. unfold toUint32. apply Z.mod_pos_bound. lia. Qed.

Lemma toInt32_range (z : Z) : (-2147483648 <= toInt32 z < 2147483648)%Z.
Proof.
  unfold toInt32.
  pose proof (Z.mod_pos_bound (z + 2147483648) 4294967296 ltac:(lia)). lia.
Qed.

Lemma ushr_0 (z : Z) : ushr z 0 = toUint32 z.
Proof. unfold ushr. apply Z.shiftr_0_r. Qed.

(** ** The hash *)

Lemma hashCodeUnits_range (codes : list Z) :
  (0 < hashCodeUnits codes < 4294967296)%Z.
Proof.
  unfold hashCodeUnits. cbv zeta. rewrite ushr_0.
  set (h := fold_left hashStep codes 2166136261%Z).
  pose proof (toUint32_range h) as R.
  destruct (Z.eqb_spec (toUint32 h) 0); lia.
Qed.

(** C3.  For every input string the hash is the same unsigned 32-bit
    integer on every invocation: it is a function of the sequence of
    character codes of the string alone (two strings with the same codes
    hash alike, the hash being [hashCodeUnits] of the codes), it lies in
    [0, 2^32), and it is never zero. *)
Theorem hashStringToInt_stable_nonzero (k1 k2 : string) :
  charCodes k1 = charCodes k2 ->
  hashStringToInt k1 = hashStringToInt k2
  /\ hashStringToInt k1 = hashCodeUnits (charCodes k1)
  /\ (0 <= hashStringToInt k1 < 4294967296)%Z
  /\ hashStringToInt k1 <> 0%Z.
Proof.
  intros H. pose proof (hashCodeUnits_range (charCodes k1)) as R.
  unfold hashStringToInt. rewrite <- H. repeat split; lia.
Qed.

Lemma hashStringToInt_stable_nonzero_witness :
  hashStringToInt "arrival" = hashStringToInt "arrival"
  /\ hashStringToInt "arrival" = hashCodeUnits (charCodes "arrival")
  /\ (0 <= hashStringToInt "arrival" < 4294967296)%Z
  /\ hashStringToInt "arrival" <> 0%Z.
Proof. apply hashStringToInt_stable_nonzero. reflexivity. Defined.

(** ** clamp *)

Lemma clamp_bounds (n lo hi : Q) : lo <= hi -> lo <= clamp n lo hi <= hi.
Proof.
  intros H. unfold clamp. split.
  - apply Q.le_max_l.
  - apply Q.max_lub; [exact H | apply Q.le_min_l].
Qed.

Lemma clamp_inside (n lo hi : Q) : lo <= n <= hi -> clamp n lo hi == n.
Proof.
  intros [H1 H2]. unfold clamp.
  rewrite Q.min_r by exact H2. apply Q.max_r. exact H1.
Qed.

Lemma clamp_mono (a b lo hi : Q) : a <= b -> clamp a lo hi <= clamp b lo hi.
Proof.
  intros H. unfold clamp.
  apply Q.max_le_compat_l. apply Q.min_le_compat_l. exact H.
Qed.

Lemma clamp_Z (z lo hi : Z) :
  clamp (inject_Z z) (inject_Z lo) (inject_Z hi) == inject_Z (Z.max lo (Z.min hi z)).
Proof.
  unfold clamp.
  destruct (Z.min_spec hi z) as [[A ->]|[A ->]].
  - rewrite Q.min_l by (rewrite <- Zle_Qle; lia).
    destruct (Z.max_spec lo hi) as [[B ->]|[B ->]].
    + apply Q.max_r. rewrite <- Zle_Qle; lia.
    + apply Q.max_l. rewrite <- Zle_Qle; lia.
  - rewrite Q.min_r by (rewrite <- Zle_Qle; lia).
    destruct (Z.max_spec lo z) as [[B ->]|[B ->]].
    + apply Q.max_r. rewrite <- Zle_Qle; lia.
    + apply Q.max_l. rewrite <- Zle_Qle; lia.
Qed.

(** ** Array lookup and the spoke chooser *)

Lemma Math_floor_Z (z : Z) : Math_floor (inject_Z z) = inject_Z z.
Proof. unfold Math_floor. now rewrite Qfloor_Z. Qed.

Lemma arrayGet_Z {A : Type} (arr : list A) (i : Q) (z : Z) :
  i == inject_Z z -> (0 <= z)%Z -> arrayGet arr i = nth_error arr (Z.to_nat z).
Proof.
  intros Hi Hz. unfold arrayGet, Math_floor.
  assert (F : Qfloor i = z) by (rewrite Hi; apply Qfloor_Z).
  rewrite F.
  assert (B : Qeq_bool i (inject_Z z) = true) by (apply Qeq_bool_iff; exact Hi).
  rewrite B. destruct (Z.leb_spec 0 z); [reflexivity | lia].
Qed.


Lemma spokeIndex_range (wc : Q) : (0 <= spokeIndex wc <= 5)%Z.
Proof. unfold spokeIndex. lia. Qed.

Lemma chooseSpokes_index (wc : Q) :
  chooseSpokes wc = nth_error candidates (Z.to_nat (spokeIndex wc)).
Proof.
  unfold chooseSpokes. cbv zeta. apply arrayGet_Z.
  - unfold Math_floor. apply (clamp_Z _ 0 5).
  - apply spokeIndex_range.
Qed.

Lemma spokeIndex_mono (a b : Q) : a <= b -> (spokeIndex a <= spokeIndex b)%Z.
Proof.
  intros H. unfold spokeIndex.
  assert (Qfloor ((a - 3) / 3) <= Qfloor ((b - 3) / 3))%Z.
  { apply Qfloor_resp_le. apply Qmult_le_compat_r; [lra | discriminate]. }
  lia.
Qed.

Lemma chooseSpokes_candidate (wc : Q) :
  exists k, chooseSpokes wc = Some k /\ In k candidates.
Proof.
  rewrite chooseSpokes_index.
  pose proof (spokeIndex_range wc) as R.
  assert (C : (Z.to_nat (spokeIndex wc) < length candidates)%nat)
    by (simpl; lia).
  destruct (nth_error candidates (Z.to_nat (spokeIndex wc))) as [k|] eqn:N.
  - exists k. split; [reflexivity | eapply nth_error_In; exact N].
  - apply nth_error_None in N. lia.
Qed.

Lemma candidates_ge_7 (k : Q) : In k candidates -> 7 <= k.
Proof.
  simpl. intros [<-|[<-|[<-|[<-|[<-|[<-|[]]]]]]]; discriminate.
Qed.

Lemma candidates_sorted (i j : nat) (a b : Q) :
  (i <= j)%nat -> nth_error candidates i = Some a ->
  nth_error candidates j = Some b -> a <= b.
Proof.
  intros Hij Ha Hb.
  do 6 (destruct i as [|i]; [ do 6 (destruct j as [|j]; [ simpl in *; first [lia | inversion Ha; inversion Hb; subst; discriminate] | ]); destruct j; discriminate | ]).
  destruct i; discriminate.
Qed.

Lemma chooseSpokes_mono (a b : Q) :
  a <= b ->
  exists ka kb, chooseSpokes a = Some ka /\ chooseSpokes b = Some kb /\ ka <= kb.
Proof.
  intros H.
  destruct (chooseSpokes_candidate a) as [ka [Ha _]].
  destruct (chooseSpokes_candidate b) as [kb [Hb _]].
  exists ka, kb. repeat split; try assumption.
  rewrite chooseSpokes_index in Ha, Hb.
  eapply candidates_sorted; [ | exact Ha | exact Hb].
  pose proof (spokeIndex_mono a b H). pose proof (spokeIndex_range a). lia.
Qed.

Lemma candidates_loopCount (k : Q) :
  In k candidates -> ofNat (loopCount k) = k /\ (7 <= loopCount k)%nat.
Proof.
  simpl. intros [<-|[<-|[<-|[<-|[<-|[<-|[]]]]]]];
    (split; [reflexivity | unfold loopCount; simpl; lia]).
Qed.

(** ** The word count *)

Lemma ofNat_le (n m : nat) : (n <= m)%nat -> ofNat n <= ofNat m.
Proof. intros H. unfold ofNat. rewrite <- Zle_Qle. lia. Qed.

Lemma wordCount_nonzero (words : list string) :
  wordCount words = ofNat (Nat.max 1 (length words)).
Proof.
  unfold wordCount. cbv zeta.
  destruct (length words) as [|n] eqn:L.
  - reflexivity.
  - destruct (Qeq_bool (ofNat (S n)) 0) eqn:B.
    + apply Qeq_bool_iff in B. unfold ofNat, Qeq in B. simpl in B. lia.
    + reflexivity.
Qed.

(** ** Loops *)

Section LoopFacts.

Context {St A : Type}.

Lemma forLoop_length (n start : nat) (body : nat -> State St A) (st : St) :
  length (fst (forLoop n start body st)) = n.
Proof.
  revert start st. induction n as [|n IH]; intros start st.
  - reflexivity.
  - cbn [forLoop]. unfold bind, ret. cbn [fst snd length]. now rewrite IH.
Qed.

(** The element pushed at position [k] is what the body returned for the
    loop index [start + k], in some state of the closure. *)
Lemma forLoop_nth (n start : nat) (body : nat -> State St A) (st : St)
      (k : nat) (x : A) :
  nth_error (fst (forLoop n start body st)) k = Some x ->
  exists st', x = fst (body (start + k)%nat st').
Proof.
  revert start st k. induction n as [|n IH]; intros start st k H.
  - destruct k; discriminate.
  - cbn [forLoop] in H. unfold bind, ret in H. cbn [fst snd] in H.
    destruct k as [|k].
    + inversion H. exists st. now rewrite Nat.add_0_r.
    + cbn [nth_error] in H. apply IH in H. destruct H as [st' ->].
      exists st'. now rewrite Nat.add_succ_r.
Qed.

Lemma forLoop_Forall (P : A -> Prop) (n start : nat)
      (body : nat -> State St A) (st : St) :
  (forall i st', P (fst (body i st'))) ->
  Forall P (fst (forLoop n start body st)).
Proof.
  intros H. apply Forall_forall. intros x Hx.
  apply In_nth_error in Hx. destruct Hx as [k Hk].
  apply forLoop_nth in Hk. destruct Hk as [st' ->]. apply H.
Qed.

End LoopFacts.

(** ** Two closures that return the same numbers *)

Section Simulation.

Context {St1 St2 : Type} (R : St1 -> St2 -> Prop).


Lemma sim_ret {A : Type} (a : A) : sim R (ret a) (ret a).
Proof. intros s1 s2 H. split; [reflexivity | exact H]. Qed.

Lemma sim_bind {A B : Type} (m1 : State St1 A) (m2 : State St2 A)
      (f1 : A -> State St1 B) (f2 : A -> State St2 B) :
  sim R m1 m2 -> (forall a, sim R (f1 a) (f2 a)) -> sim R (bind m1 f1) (bind m2 f2).
Proof.
  intros Hm Hf s1 s2 H. unfold bind.
  destruct (Hm s1 s2 H) as [E1 E2]. rewrite E1. now apply Hf.
Qed.

Lemma sim_forLoop {A : Type} (n start : nat)
      (b1 : nat -> State St1 A) (b2 : nat -> State St2 A) :
  (forall i, sim R (b1 i) (b2 i)) -> sim R (forLoop n start b1) (forLoop n start b2).
Proof.
  intros Hb. revert start. induction n as [|n IH]; intros start.
  - apply sim_ret.
  - cbn [forLoop]. apply sim_bind; [apply Hb | intros x].
    apply sim_bind; [apply IH | intros xs]. apply sim_ret.
Qed.

Context {E : Engine} (rnd1 : State St1 Q) (rnd2 : State St2 Q).
Hypothesis rnd_sim : sim R rnd1 rnd2.

Lemma sim_segmentBody p spokes r bias i s :
  sim R (segmentBody rnd1 p spokes r bias i s) (segmentBody rnd2 p spokes r bias i s).
Proof.
  unfold segmentBody.
  repeat (apply sim_bind; [exact rnd_sim | intros ?]). apply sim_ret.
Qed.

Lemma sim_ringBody p spokes rb rg i :
  sim R (ringBody rnd1 p spokes rb rg i) (ringBody rnd2 p spokes rb rg i).
Proof.
  unfold ringBody. apply sim_bind; [exact rnd_sim | intros u].
  apply sim_forLoop. intros s. apply sim_segmentBody.
Qed.

Lemma sim_connectorRing p spokes rb rg i :
  sim R (connectorRing rnd1 p spokes rb rg i) (connectorRing rnd2 p spokes rb rg i).
Proof.
  unfold connectorRing. apply sim_forLoop. intros s. unfold connectorBody.
  apply sim_bind; [exact rnd_sim | intros u]. apply sim_ret.
Qed.

Lemma sim_geometry p words :
  sim R (geometry rnd1 p words) (geometry rnd2 p words).
Proof.
  unfold geometry.
  apply sim_bind; [exact rnd_sim | intros u1].
  apply sim_bind; [exact rnd_sim | intros u2].
  apply sim_bind; [apply sim_forLoop; intros i; apply sim_ringBody | intros segs].
  apply sim_bind; [apply sim_forLoop; intros i; apply sim_connectorRing | intros conns].
  apply sim_ret.
Qed.

End Simulation.

(** ** The generator closure *)

Lemma mulberryMix_range (t : Z) : (0 <= mulberryMix t < 4294967296)%Z.
Proof. unfold mulberryMix. cbv zeta. rewrite ushr_0. apply toUint32_range. Qed.

Lemma mulberryNext_unit (a : Rng) : 0 <= fst (mulberryNext a) < 1.
Proof.
  unfold mulberryNext. cbv zeta. cbn [fst].
  pose proof (mulberryMix_range (a + mulberryStep)) as R.
  set (m := mulberryMix (a + mulberryStep)) in *.
  split.
  - apply Qle_shift_div_l; [reflexivity | ].
    rewrite Qmult_0_l. change 0 with (inject_Z 0). rewrite <- Zle_Qle. lia.
  - apply Qlt_shift_div_r; [reflexivity | ].
    rewrite Qmult_1_l. change 4294967296 with (inject_Z 4294967296).
    rewrite <- Zlt_Qlt. lia.
Qed.

Lemma mulberryNext_state (a : Rng) : snd (mulberryNext a) = (a + mulberryStep)%Z.
Proof. reflexivity. Qed.

(** ** Ring count *)

#[local] Instance clamp_compat : Proper (Qeq ==> Qeq ==> Qeq ==> Qeq) clamp.
Proof.
  intros n n' Hn lo lo' Hlo hi hi' Hhi. unfold clamp.
  rewrite Hn, Hlo, Hhi. reflexivity.
Qed.

Lemma loopCount_Z (q : Q) (z : Z) : q == inject_Z z -> loopCount q = Z.to_nat z.
Proof. intros H. unfold loopCount. rewrite H. now rewrite Qceiling_Z. Qed.

Lemma rings_ringCount (t u : Q) :
  clamp (3 + Math_floor (t * 3 + u * 2)) 3 7 == inject_Z (ringCount t u).
Proof.
  unfold Math_floor, ringCount.
  change 3 with (inject_Z 3) at 1. rewrite <- inject_Z_plus.
  apply (clamp_Z _ 3 7).
Qed.

Lemma ringCount_range (t u : Q) : (3 <= ringCount t u <= 7)%Z.
Proof. unfold ringCount. lia. Qed.

(** With the temporality in [0,1] and a draw in [0,1) the clamp of the
    ring count is idle. *)
Lemma ringCount_unclamped (t u : Q) :
  0 <= t <= 1 -> 0 <= u < 1 ->
  ringCount t u = (3 + Qfloor (t * 3 + u * 2))%Z.
Proof.
  intros Ht Hu. unfold ringCount.
  assert (L : (0 <= Qfloor (t * 3 + u * 2))%Z).
  { change 0%Z with (Qfloor (inject_Z 0)). apply Qfloor_resp_le.
    change (inject_Z 0) with 0. lra. }
  assert (U : (Qfloor (t * 3 + u * 2) < 5)%Z).
  { rewrite Zlt_Qlt. apply Qle_lt_trans with (t * 3 + u * 2).
    - apply Qfloor_le.
    - change (inject_Z 5) with 5. lra. }
  lia.
Qed.

(** ** What [generateSegments] returns, field by field *)

Section Fields.

Context {E : Engine} {St : Type} (rnd : State St Q).
Variables (p : SemagramParams) (words : list string) (st : St).

Lemma geometry_rings :
  rings (fst (geometry rnd p words st))
  = clamp (3 + Math_floor (temporality p * 3 + fst (rnd st) * 2)) 3 7.
Proof. reflexivity. Qed.

Lemma geometry_spokes :
  spokes (fst (geometry rnd p words st)) = chooseSpokes (wordCount words).
Proof. reflexivity. Qed.

Lemma geometry_radiusBase : radiusBase (fst (geometry rnd p words st)) = 100.
Proof. reflexivity. Qed.

Lemma geometry_ringGap :
  ringGap (fst (geometry rnd p words st)) = 28 + fst (rnd (snd (rnd st))) * 6.
Proof. reflexivity. Qed.

Lemma geometry_segments :
  let g := fst (geometry rnd p words st) in
  exists st', segments g
    = fst (forLoop (loopCount (rings g)) 0
                   (ringBody rnd p (spokes g) (radiusBase g) (ringGap g)) st').
Proof. eexists. reflexivity. Qed.

Lemma geometry_connectors :
  let g := fst (geometry rnd p words st) in
  exists st', connectors g
    = fst (forLoop (loopCount (rings g - 1)) 0
                   (connectorRing rnd p (spokes g) (radiusBase g) (ringGap g)) st').
Proof. eexists. reflexivity. Qed.

End Fields.

(** ** Shape of the generated geometry *)

Section Shape.

Context {E : Engine}.
Variable p : SemagramParams.

Let g : Geometry := generateSegments p.
Let words : list string := splitContentWords (proposition p).
Let u0 : Q := drawAt (baseSeed p) 0.

Lemma generate_spokes : spokes g = chooseSpokes (wordCount words).
Proof. reflexivity. Qed.

Lemma generate_rings :
  rings g = clamp (3 + Math_floor (temporality p * 3 + u0 * 2)) 3 7.
Proof.
  unfold g, generateSegments. cbv zeta. rewrite geometry_rings.
  unfold u0, drawAt, mulberry32. cbn [Z.of_nat Z.mul]. now rewrite Z.add_0_r.
Qed.

Lemma generate_rings_Z : rings g == inject_Z (ringCount (temporality p) u0).
Proof. rewrite generate_rings. apply rings_ringCount. Qed.

Lemma generate_segments_length :
  length (segments g) = Z.to_nat (ringCount (temporality p) u0).
Proof.
  destruct (geometry_segments mulberryNext p words (mulberry32 (baseSeed p)))
    as [st' H].
  cbv zeta in H. unfold g, generateSegments. cbv zeta. fold words. rewrite H.
  rewrite forLoop_length. apply loopCount_Z. apply generate_rings_Z.
Qed.

Lemma generate_connectors_length :
  length (connectors g) = Z.to_nat (ringCount (temporality p) u0 - 1).
Proof.
  destruct (geometry_connectors mulberryNext p words (mulberry32 (baseSeed p)))
    as [st' H].
  cbv zeta in H. unfold g, generateSegments. cbv zeta. fold words. rewrite H.
  rewrite forLoop_length. apply loopCount_Z.
  pose proof generate_rings_Z as RZ. unfold g, generateSegments in RZ.
  cbv zeta in RZ. fold words in RZ. rewrite RZ.
  unfold Z.sub. rewrite inject_Z_plus. reflexivity.
Qed.

Lemma generate_ring_lengths :
  Forall (fun ring => length ring = spokeLoop (spokes g)) (segments g).
Proof.
  destruct (geometry_segments mulberryNext p words (mulberry32 (baseSeed p)))
    as [st' H].
  cbv zeta in H. unfold g, generateSegments. cbv zeta. fold words. rewrite H.
  apply forLoop_Forall. intros i st. unfold ringBody, bind. cbn [fst snd].
  apply forLoop_length.
Qed.

Lemma generate_connector_lengths :
  Forall (fun conns => length conns = spokeLoop (spokes g)) (connectors g).
Proof.
  destruct (geometry_connectors mulberryNext p words (mulberry32 (baseSeed p)))
    as [st' H].
  cbv zeta in H. unfold g, generateSegments. cbv zeta. fold words. rewrite H.
  apply forLoop_Forall. intros i st. unfold connectorRing.
  apply forLoop_length.
Qed.

(** Every segment of ring [i] is an arc of radius [ringRadius g i] and has
    the stroke width of ring [i]. *)
Lemma generate_segment_at (i : nat) (ring : list Segment) (seg : Segment) :
  nth_error (segments g) i = Some ring -> In seg ring ->
  seg_w seg = strokeWidth p i
  /\ exists a0 a1, seg_d seg = arcPath 0 0 (ringRadius g i) a0 a1.
Proof.
  intros Hring Hseg.
  destruct (geometry_segments mulberryNext p words (mulberry32 (baseSeed p)))
    as [st' H].
  cbv zeta in H. change (segments g) with (segments (fst (geometry mulberryNext p words (mulberry32 (baseSeed p))))) in Hring. rewrite H in Hring.
  apply forLoop_nth in Hring. destruct Hring as [st1 ->].
  cbn [Nat.add] in Hseg. unfold ringBody, bind in Hseg. cbn [fst snd] in Hseg.
  apply In_nth_error in Hseg. destruct Hseg as [s Hs].
  apply forLoop_nth in Hs. destruct Hs as [st2 ->].
  split; [reflexivity | ].
  unfold segmentBody, bind, ret. cbn [fst snd seg_d].
  eexists. eexists. reflexivity.
Qed.

(** Every connector of the connector ring [i] joins the circle of ring
    [i] to the circle of ring [i + 1] along one angle. *)
Lemma generate_connector_at (i : nat) (conns : list Connector) (c : Connector) :
  nth_error (connectors g) i = Some conns -> In c conns ->
  exists a,
    {| pt_x := conn_x1 c; pt_y := conn_y1 c |}
      = polar 0 0 (radiusBase g + ofNat i * ringGap g) a
    /\ {| pt_x := conn_x2 c; pt_y := conn_y2 c |}
      = polar 0 0 (radiusBase g + (ofNat i + 1) * ringGap g) a.
Proof.
  intros Hring Hc.
  destruct (geometry_connectors mulberryNext p words (mulberry32 (baseSeed p)))
    as [st' H].
  cbv zeta in H.
  change (connectors g)
    with (connectors (fst (geometry mulberryNext p words (mulberry32 (baseSeed p)))))
    in Hring.
  rewrite H in Hring.
  apply forLoop_nth in Hring. destruct Hring as [st1 ->].
  cbn [Nat.add] in Hc. unfold connectorRing in Hc.
  apply In_nth_error in Hc. destruct Hc as [s Hs].
  apply forLoop_nth in Hs. destruct Hs as [st2 ->].
  unfold connectorBody, bind, ret. cbn [fst snd conn_x1 conn_y1 conn_x2 conn_y2].
  eexists. split; reflexivity.
Qed.

Lemma generate_ringGap : 28 <= ringGap g < 34.
Proof.
  unfold g, generateSegments. cbv zeta. rewrite geometry_ringGap.
  pose proof (mulberryNext_unit (snd (mulberryNext (mulberry32 (baseSeed p))))).
  lra.
Qed.

Lemma ringRadius_increasing (i j : nat) :
  (i < j)%nat -> ringRadius g i < ringRadius g j.
Proof.
  intros H. unfold ringRadius.
  pose proof generate_ringGap as G.
  assert (L : ofNat i + 1 <= ofNat j).
  { unfold ofNat. change 1 with (inject_Z 1). rewrite <- inject_Z_plus.
    rewrite <- Zle_Qle. lia. }
  nra.
Qed.

End Shape.

Lemma generate_spokes_candidate {E : Engine} (p : SemagramParams) :
  exists k, spokes (generateSegments p) = Some k /\ In k candidates.
Proof. rewrite (generate_spokes p). apply chooseSpokes_candidate. Qed.

(** C7.  With the temporality in [0,1], the ring count of the generated
    geometry is an integer between 3 and 7 (the clamp is even idle: it is
    3 plus the floor of [temporality * 3 + draw * 2]); the spoke count is
    a member of the candidate array [7, 9, 11, 13, 17, 19], and it is the
    value at the word count of a chooser that is nondecreasing in the
    content-word count. *)
Theorem rings_and_spokes_bounded {E : Engine} (p : SemagramParams) :
  0 <= temporality p <= 1 ->
  let g := generateSegments p in
  let u := drawAt (baseSeed p) 0 in
  3 <= rings g <= 7
  /\ rings g == inject_Z (3 + Qfloor (temporality p * 3 + u * 2))
  /\ (exists k, spokes g = Some k /\ In k [7; 9; 11; 13; 17; 19])
  /\ spokes g = chooseSpokes (wordCount (splitContentWords (proposition p)))
  /\ (forall words1 words2 : list string,
        (length words1 <= length words2)%nat ->
        exists k1 k2,
          chooseSpokes (wordCount words1) = Some k1
          /\ chooseSpokes (wordCount words2) = Some k2
          /\ k1 <= k2).
Proof.
  intros Ht g u.
  pose proof (generate_rings_Z p) as RZ. cbv zeta in RZ. fold g u in RZ.
  pose proof (ringCount_range (temporality p) u) as RR.
  assert (U : 0 <= u < 1) by apply mulberryNext_unit.
  repeat split.
  - rewrite RZ. change 3 with (inject_Z 3). rewrite <- Zle_Qle. lia.
  - rewrite RZ. change 7 with (inject_Z 7). rewrite <- Zle_Qle. lia.
  - rewrite RZ. now rewrite (ringCount_unclamped _ _ Ht U).
  - apply generate_spokes_candidate.
  - intros words1 words2 L. apply chooseSpokes_mono.
    rewrite !wordCount_nonzero. apply ofNat_le. lia.
Qed.

Lemma rings_and_spokes_bounded_witness :
  let g := @generateSegments polyEngine defaultParams in
  3 <= rings g <= 7 /\ spokes g = Some 9.
Proof.
  assert (H : 0 <= temporality defaultParams <= 1)
    by (split; discriminate).
  pose proof (@rings_and_spokes_bounded polyEngine defaultParams H) as T.
  cbv zeta in T. destruct T as [R [_ [_ [S _]]]].
  split; [exact R | ]. rewrite S. reflexivity.
Defined.

(** C9.  The generated geometry is well formed: [rings] is an integer
    between 3 and 7 and [spokes] an integer of at least 7; [segments] has
    exactly [rings] entries with exactly [spokes] arc segments each;
    [connectors] has exactly [rings - 1] entries (one less than [segments],
    never none) with exactly [spokes] connectors each;
    and ring [i] is drawn at the radius [radiusBase + i * ringGap] (its
    arcs, and the connectors from ring [i] to ring [i + 1]) with base
    radius 100 and a positive ring gap, so the radii increase strictly
    with the ring index. *)
Theorem generateSegments_well_formed {E : Engine} (p : SemagramParams) :
  let g := generateSegments p in
  exists nRings nSpokes : nat,
    rings g == ofNat nRings
    /\ (3 <= nRings <= 7)%nat
    /\ spokes g = Some (ofNat nSpokes)
    /\ (7 <= nSpokes)%nat
    /\ length (segments g) = nRings
    /\ Forall (fun ring => length ring = nSpokes) (segments g)
    /\ S (length (connectors g)) = nRings
    /\ Forall (fun conns => length conns = nSpokes) (connectors g)
    /\ radiusBase g == 100 /\ 0 < ringGap g
    /\ (forall i ring seg,
          nth_error (segments g) i = Some ring -> In seg ring ->
          exists a0 a1,
            seg_d seg = arcPath 0 0 (radiusBase g + ofNat i * ringGap g) a0 a1)
    /\ (forall i conns c,
          nth_error (connectors g) i = Some conns -> In c conns ->
          exists a,
            {| pt_x := conn_x1 c; pt_y := conn_y1 c |}
              = polar 0 0 (radiusBase g + ofNat i * ringGap g) a
            /\ {| pt_x := conn_x2 c; pt_y := conn_y2 c |}
              = polar 0 0 (radiusBase g + (ofNat i + 1) * ringGap g) a)
    /\ (forall i j, (i < j)%nat ->
          radiusBase g + ofNat i * ringGap g < radiusBase g + ofNat j * ringGap g).
Proof.
  intros g.
  set (z := ringCount (temporality p) (drawAt (baseSeed p) 0)).
  pose proof (ringCount_range (temporality p) (drawAt (baseSeed p) 0)) as RR.
  fold z in RR.
  destruct (generate_spokes_candidate p) as [k [Hk Hin]]. fold g in Hk.
  destruct (candidates_loopCount k Hin) as [Hn Hge].
  exists (Z.to_nat z), (loopCount k).
  split; [ | split; [ | split; [ | split; [ | split; [ | split; [ | split;
    [ | split; [ | split; [ | split; [ | split; [ | split ]]]]]]]]]]].
  - pose proof (generate_rings_Z p) as RZ. cbv zeta in RZ. fold g z in RZ.
    rewrite RZ. unfold ofNat. rewrite Z2Nat.id by lia. reflexivity.
  - lia.
  - rewrite Hk, Hn. reflexivity.
  - exact Hge.
  - apply (generate_segments_length p).
  - pose proof (generate_ring_lengths p) as F. cbv zeta in F. fold g in F.
    rewrite Hk in F. exact F.
  - pose proof (generate_connectors_length p) as L. cbv zeta in L.
    fold g z in L. rewrite L. lia.
  - pose proof (generate_connector_lengths p) as F. cbv zeta in F. fold g in F.
    rewrite Hk in F. exact F.
  - reflexivity.
  - pose proof (generate_ringGap p) as G. cbv zeta in G. fold g in G. lra.
  - intros i ring seg Hr Hs.
    destruct (generate_segment_at p i ring seg Hr Hs) as [_ H]. exact H.
  - intros i conns c Hr Hc. exact (generate_connector_at p i conns c Hr Hc).
  - intros i j Hij. apply (ringRadius_increasing p i j Hij).
Qed.

(** C10.  The generator is total for every proposition: the index used by
    [chooseSpokes] lies inside the candidate array for every word count,
    so the lookup never yields [undefined]; a word count of zero is passed
    on as one; the geometry returned has at least 7 spokes, at least 3
    rings, and every ring holds at least 7 segments. *)
Theorem generateSegments_total {E : Engine} (p : SemagramParams) :
  let g := generateSegments p in
  (forall wc : Q,
      (0 <= spokeIndex wc < Z.of_nat (length candidates))%Z
      /\ chooseSpokes wc = nth_error candidates (Z.to_nat (spokeIndex wc))
      /\ exists k, chooseSpokes wc = Some k /\ 7 <= k)
  /\ wordCount [] = 1
  /\ 1 <= wordCount (splitContentWords (proposition p))
  /\ (exists k, spokes g = Some k /\ 7 <= k)
  /\ (3 <= length (segments g))%nat
  /\ Forall (fun ring => (7 <= length ring)%nat) (segments g).
Proof.
  intros g. repeat split.
  - apply spokeIndex_range.
  - pose proof (spokeIndex_range wc). simpl. lia.
  - apply chooseSpokes_index.
  - destruct (chooseSpokes_candidate wc) as [k [Hk Hin]].
    exists k. split; [exact Hk | now apply candidates_ge_7].
  - rewrite wordCount_nonzero. change 1 with (ofNat 1). apply ofNat_le. lia.
  - destruct (generate_spokes_candidate p) as [k [Hk Hin]].
    exists k. split; [exact Hk | now apply candidates_ge_7].
  - pose proof (generate_segments_length p) as L. cbv zeta in L. fold g in L.
    pose proof (ringCount_range (temporality p) (drawAt (baseSeed p) 0)). lia.
  - destruct (generate_spokes_candidate p) as [k [Hk Hin]]. fold g in Hk.
    pose proof (generate_ring_lengths p) as F. cbv zeta in F. fold g in F.
    rewrite Hk in F. destruct (candidates_loopCount k Hin) as [_ Hge].
    eapply Forall_impl; [ | exact F]. cbn beta. intros ring ->. exact Hge.
Qed.

(** ** Stroke width *)

Lemma lerp_mono (a b t t' : Q) : a <= b -> t <= t' -> lerp a b t <= lerp a b t'.
Proof. intros Hab Ht. unfold lerp. nra. Qed.

Lemma lerp_range (a b t : Q) : a <= b -> 0 <= t <= 1 -> a <= lerp a b t <= b.
Proof. intros Hab Ht. unfold lerp. nra. Qed.

Lemma clamp_below (n lo hi : Q) : lo <= hi -> n <= lo -> clamp n lo hi == lo.
Proof.
  intros H1 H2. unfold clamp.
  apply Q.max_l. rewrite Q.min_r by lra. exact H2.
Qed.

Lemma strokeWidth_range {E : Engine} (p : SemagramParams) (i : nat) :
  0.8 <= strokeWidth p i <= 7.
Proof. unfold strokeWidth. apply clamp_bounds. discriminate. Qed.

(** The stroke width grows with certainty and emphasis, at every ring. *)
Lemma strokeWidth_mono {E : Engine} (p p' : SemagramParams) (i : nat) :
  inUnit (certainty p) -> inUnit (certainty p') ->
  inUnit (emphasis p) -> inUnit (emphasis p') ->
  certainty p <= certainty p' -> emphasis p <= emphasis p' ->
  strokeWidth p i <= strokeWidth p' i.
Proof.
  unfold inUnit. intros Hc Hc' He He' Lc Le. unfold strokeWidth.
  pose proof (lerp_range 1.2 5.5 (certainty p) ltac:(discriminate) Hc) as A.
  pose proof (lerp_range 0.8 1.15 (emphasis p) ltac:(discriminate) He) as B.
  pose proof (lerp_mono 1.2 5.5 _ _ ltac:(discriminate) Lc) as MA.
  pose proof (lerp_mono 0.8 1.15 _ _ ltac:(discriminate) Le) as MB.
  set (a := lerp 1.2 5.5 (certainty p)) in *.
  set (a' := lerp 1.2 5.5 (certainty p')) in *.
  set (b := lerp 0.8 1.15 (emphasis p)) in *.
  set (b' := lerp 0.8 1.15 (emphasis p')) in *.
  set (f := 1 - ofNat i * 0.03).
  destruct (Qlt_le_dec f 0) as [Neg | Pos].
  - assert (P : 0 <= a * b) by nra.
    rewrite (clamp_below (a * b * f)); [ | discriminate | nra ].
    apply clamp_bounds. discriminate.
  - assert (P : a * b <= a' * b') by nra.
    apply clamp_mono. nra.
Qed.

(** The stroke width shrinks (weakly) as the ring index grows. *)
Lemma strokeWidth_taper {E : Engine} (p : SemagramParams) (i j : nat) :
  inUnit (certainty p) -> inUnit (emphasis p) -> (i <= j)%nat ->
  strokeWidth p j <= strokeWidth p i.
Proof.
  unfold inUnit. intros Hc He Hij. unfold strokeWidth. apply clamp_mono.
  pose proof (lerp_range 1.2 5.5 (certainty p) ltac:(discriminate) Hc) as A.
  pose proof (lerp_range 0.8 1.15 (emphasis p) ltac:(discriminate) He) as B.
  pose proof (ofNat_le i j Hij) as L.
  set (a := lerp 1.2 5.5 (certainty p)) in *.
  set (b := lerp 0.8 1.15 (emphasis p)) in *.
  assert (P : 0 <= a * b) by nra.
  nra.
Qed.

Lemma segmentAt_width {E : Engine} (p : SemagramParams) (i s : nat) (seg : Segment) :
  segmentAt (generateSegments p) i s seg -> seg_w seg = strokeWidth p i.
Proof.
  intros [ring [Hr Hs]]. apply nth_error_In in Hs.
  now destruct (generate_segment_at p i ring seg Hr Hs).
Qed.

(** C8.  In the generated geometry the stroke width of every arc segment
    lies in the fixed range [0.8, 7]; between two parameter records it is
    nondecreasing in certainty and in emphasis (whatever the seed, the
    proposition and the other parameters are); and inside one geometry it
    is nonincreasing as the ring index increases. *)
Theorem stroke_width_monotone {E : Engine} (p p' : SemagramParams) :
  inUnit (certainty p) -> inUnit (certainty p') ->
  inUnit (emphasis p) -> inUnit (emphasis p') ->
  certainty p <= certainty p' -> emphasis p <= emphasis p' ->
  (forall i s seg, segmentAt (generateSegments p) i s seg ->
      0.8 <= seg_w seg <= 7)
  /\ (forall i s s' seg seg',
        segmentAt (generateSegments p) i s seg ->
        segmentAt (generateSegments p') i s' seg' ->
        seg_w seg <= seg_w seg')
  /\ (forall i j s s' seg seg',
        (i <= j)%nat ->
        segmentAt (generateSegments p) i s seg ->
        segmentAt (generateSegments p) j s' seg' ->
        seg_w seg' <= seg_w seg).
Proof.
  intros Hc Hc' He He' Lc Le. split; [ | split ].
  - intros i s seg H. rewrite (segmentAt_width p i s seg H).
    apply strokeWidth_range.
  - intros i s s' seg seg' H H'.
    rewrite (segmentAt_width p i s seg H), (segmentAt_width p' i s' seg' H').
    now apply strokeWidth_mono.
  - intros i j s s' seg seg' Hij H H'.
    rewrite (segmentAt_width p i s seg H), (segmentAt_width p j s' seg' H').
    now apply strokeWidth_taper.
Qed.

Lemma stroke_width_monotone_witness :
  let p := defaultParams in
  let p' := {| proposition := "the cat sat"; certainty := 0.9; modality := 0.4;
               temporality := 0.1; agency := 0.55; perspective := P2nd;
               negation := true; hypothetical := false; emphasis := 1;
               seed := "return" |} in
  (certainty p <= certainty p' /\ emphasis p <= emphasis p')
  /\ (forall i s s' seg seg',
        segmentAt (@generateSegments polyEngine p) i s seg ->
        segmentAt (@generateSegments polyEngine p') i s' seg' ->
        seg_w seg <= seg_w seg').
Proof.
  intros p p'.
  assert (Lc : certainty p <= certainty p') by discriminate.
  assert (Le : emphasis p <= emphasis p') by discriminate.
  split; [split; assumption | ].
  apply (@stroke_width_monotone polyEngine p p');
    unfold inUnit; cbn; try split; discriminate.
Defined.

(** ** Tokenizer fallback *)

Lemma geometry_words {E : Engine} {St : Type} (rnd : State St Q)
      (p : SemagramParams) (words words' : list string) :
  wordCount words = wordCount words' ->
  geometry rnd p words = geometry rnd p words'.
Proof. intros H. unfold geometry. now rewrite H. Qed.

(** C4 as stated fails: the tokenizer has no fallback.  For the text
    "the" the extraction of content words yields the empty list, and
    [splitContentWords] returns that empty list, not the list holding the
    raw input. *)
Lemma tokenization_has_no_fallback :
  ~ (forall text : string,
        filter (fun w => negb (includes stopWords w))
               (matchRuns (toLowerCase text) []) = [] ->
        splitContentWords text = [text]).
Proof.
  intros H. specialize (H "the" eq_refl). discriminate H.
Qed.

(** C4 (amended).  When the extraction of content words from the
    proposition yields the empty list, the word list stays empty and the
    generator replaces its length by 1 ([words.length || 1]): the count
    handed to [chooseSpokes] is 1, the spoke count is that of one word, 7,
    and the geometry is the one of a word list with one element, whatever
    that element is (the raw input plays no part).  The count handed to
    [chooseSpokes] is never zero, whatever the text. *)
Theorem empty_extraction_counts_one {E : Engine} (p : SemagramParams) :
  splitContentWords (proposition p) = [] ->
  wordCount (splitContentWords (proposition p)) = 1
  /\ spokes (generateSegments p) = chooseSpokes 1
  /\ spokes (generateSegments p) = Some 7
  /\ (forall token : string,
        generateSegments p
        = fst (geometry mulberryNext p [token] (mulberry32 (baseSeed p))))
  /\ (forall text, 1 <= wordCount (splitContentWords text)).
Proof.
  intros H. split; [ | split; [ | split; [ | split ]]].
  - now rewrite H.
  - rewrite (generate_spokes p), H. reflexivity.
  - rewrite (generate_spokes p), H. reflexivity.
  - intros token. unfold generateSegments. cbv zeta. rewrite H.
    now rewrite (geometry_words mulberryNext p [] [token]).
  - intros text. rewrite wordCount_nonzero.
    change 1 with (ofNat 1). apply ofNat_le. lia.
Qed.

Lemma empty_extraction_counts_one_witness :
  let p := {| proposition := "The... a, an -- AND/OR is!"; certainty := 0.68;
              modality := 0.4; temporality := 0.82; agency := 0.55;
              perspective := P1st; negation := false; hypothetical := false;
              emphasis := 0.9; seed := "arrival" |} in
  splitContentWords (proposition p) = []
  /\ spokes (@generateSegments polyEngine p) = Some 7.
Proof.
  intros p.
  assert (H : splitContentWords (proposition p) = []) by reflexivity.
  split; [exact H | ].
  exact (proj1 (proj2 (proj2 (@empty_extraction_counts_one polyEngine p H)))).
Defined.

(** ** Blend mode *)

(** C5.  In blend mode the opacity of each layer is a linear function of
    the blend weight: it interpolates linearly between its values at
    weight 0 and at weight 1.  At weight 0 layer A has opacity 1, its
    maximum over [0,1], and layer B has opacity 0.35, its minimum (the
    floor); at weight 1 the two are exchanged. *)
Theorem blend_opacity_linear {E : Engine} (p p2 : SemagramParams) (blend : Q) :
  0 <= blend <= 1 ->
  let opacityA w := layer_opacity (blend_A (renderBlend p p2 w)) in
  let opacityB w := layer_opacity (blend_B (renderBlend p p2 w)) in
  opacityA blend == opacityA 0 + blend * (opacityA 1 - opacityA 0)
  /\ opacityB blend == opacityB 0 + blend * (opacityB 1 - opacityB 0)
  /\ opacityA 0 == 1 /\ opacityB 0 == 0.35
  /\ opacityA 1 == 0.35 /\ opacityB 1 == 1
  /\ 0.35 <= opacityA blend <= 1
  /\ 0.35 <= opacityB blend <= 1.
Proof.
  intros H opacityA opacityB. unfold opacityA, opacityB. cbn.
  repeat split; try reflexivity; try lra; try ring.
Qed.

Lemma blend_opacity_linear_witness :
  0 <= 0.5 <= 1
  /\ 0.35 <= layer_opacity
               (blend_A (@renderBlend polyEngine defaultParams defaultParams 0.5))
          <= 1
  /\ 0.35 <= layer_opacity
               (blend_B (@renderBlend polyEngine defaultParams defaultParams 0.5))
          <= 1.
Proof.
  assert (H : 0 <= 0.5 <= 1) by (split; discriminate).
  split; [exact H | ].
  destruct (@blend_opacity_linear polyEngine defaultParams defaultParams 0.5 H)
    as (_ & _ & _ & _ & _ & _ & A & B).
  split; assumption.
Defined.

(** ** Determinism of the draws *)

Lemma drawAt_sim (s : Z) :
  sim (fun a k => a = (s + Z.of_nat k * mulberryStep)%Z)
      mulberryNext (tableStream (drawAt s)).
Proof.
  intros a k ->. split.
  - reflexivity.
  - unfold tableStream. cbn [snd]. rewrite mulberryNext_state. lia.
Qed.

Lemma onFirst_sim {S1 S2 : Type} (rnd : State S1 Q) (c : S2) :
  sim (fun a w => fst w = a /\ snd w = c) rnd (onFirst rnd).
Proof.
  intros a w [<- <-]. unfold onFirst. cbn [fst snd]. repeat split.
Qed.

Lemma onSecond_sim {S1 S2 : Type} (rnd : State S2 Q) (c : S1) :
  sim (fun a w => snd w = a /\ fst w = c) rnd (onSecond rnd).
Proof.
  intros a w [<- <-]. unfold onSecond. cbn [fst snd]. repeat split.
Qed.

Section Counting.

Lemma uses_table (table : nat -> Q) : uses (tableStream table) 1.
Proof. intros k. unfold tableStream. cbn [snd]. lia. Qed.

Lemma uses_ret {A : Type} (a : A) : uses (ret a) 0.
Proof. intros k. unfold ret. cbn [snd]. lia. Qed.

Lemma uses_bind {A B : Type} (m : State nat A) (f : A -> State nat B)
      (c1 c2 : nat) :
  uses m c1 -> (forall a, uses (f a) c2) -> uses (bind m f) (c1 + c2).
Proof.
  intros Hm Hf k. unfold bind. rewrite Hf, Hm. lia.
Qed.

Lemma uses_forLoop {A : Type} (n start : nat) (body : nat -> State nat A)
      (c : nat) :
  (forall i, uses (body i) c) -> uses (forLoop n start body) (n * c).
Proof.
  intros Hb. revert start. induction n as [|n IH]; intros start.
  - apply uses_ret.
  - cbn [forLoop]. replace (S n * c)%nat with (c + (n * c + 0))%nat by lia.
    apply uses_bind; [apply Hb | intros x].
    apply uses_bind; [apply IH | intros xs]. apply uses_ret.
Qed.

Context {E : Engine} (table : nat -> Q).

Lemma uses_segmentBody p spokes r bias i s :
  uses (segmentBody (tableStream table) p spokes r bias i s) 3.
Proof.
  unfold segmentBody.
  change 3%nat with (1 + (1 + (1 + 0)))%nat.
  repeat (apply uses_bind; [apply uses_table | intros ?]). apply uses_ret.
Qed.

Lemma uses_ringBody p spokes rb rg i :
  uses (ringBody (tableStream table) p spokes rb rg i) (1 + spokeLoop spokes * 3).
Proof.
  unfold ringBody. apply uses_bind; [apply uses_table | intros u].
  apply uses_forLoop. intros s. apply uses_segmentBody.
Qed.

Lemma uses_connectorRing p spokes rb rg i :
  uses (connectorRing (tableStream table) p spokes rb rg i) (spokeLoop spokes).
Proof.
  unfold connectorRing.
  replace (spokeLoop spokes) with (spokeLoop spokes * 1)%nat at 2 by lia.
  apply uses_forLoop. intros s. unfold connectorBody.
  change 1%nat with (1 + 0)%nat.
  apply uses_bind; [apply uses_table | intros u]. apply uses_ret.
Qed.

(** The draws of one generation: one for the ring count, one for the ring
    gap, then ring by ring one for the bias and three per segment, then one
    per connector. *)
Lemma geometry_draws p words k :
  let g := fst (geometry (tableStream table) p words k) in
  snd (geometry (tableStream table) p words k)
  = (k + (2 + loopCount (rings g) * (1 + spokeLoop (spokes g) * 3)
          + loopCount (rings g - 1) * spokeLoop (spokes g)))%nat.
Proof.
  intros g. unfold g. rewrite geometry_rings, geometry_spokes.
  change (fst (tableStream table k)) with (table k).
  set (nR := loopCount _). set (nC := loopCount _).
  set (sp := chooseSpokes (wordCount words)).
  unfold geometry, bind. cbn [fst snd ret].
  rewrite (uses_forLoop _ _ _ (spokeLoop sp))
    by (intros i; apply uses_connectorRing).
  rewrite (uses_forLoop _ _ _ (1 + spokeLoop sp * 3))
    by (intros i; apply uses_ringBody).
  unfold tableStream. cbn [fst snd]. fold nR nC. lia.
Qed.

End Counting.

(** C2.  For every seed [s] and every parameter record, the geometry
    generated from the closure [mulberry32 s] is the one obtained by
    reading the draws from the table [drawAt s], a function of the seed
    and the position alone; the draws are consumed in a fixed order, their
    number being determined by the ring and spoke counts; and two calls in
    one world, each with its own closure on the same seed, return the same
    geometry (segments and connectors with all their fields). *)
Theorem geometry_deterministic {E : Engine} (s : Z) (p : SemagramParams)
        (words : list string) :
  let run := geometry mulberryNext p words (mulberry32 s) in
  let pure := geometry (tableStream (drawAt s)) p words 0%nat in
  let g := fst run in
  g = fst pure
  /\ snd run = (s + Z.of_nat (snd pure) * mulberryStep)%Z
  /\ snd pure = (2 + loopCount (rings g) * (1 + spokeLoop (spokes g) * 3)
                 + loopCount (rings g - 1) * spokeLoop (spokes g))%nat
  /\ (let first :=
        geometry (onFirst mulberryNext) p words (mulberry32 s, mulberry32 s) in
      let second := geometry (onSecond mulberryNext) p words (snd first) in
      fst first = g /\ fst second = g)
  /\ generateSegments p
     = fst (geometry (tableStream (drawAt (baseSeed p))) p
                     (splitContentWords (proposition p)) 0%nat).
Proof.
  intros run pure g.
  assert (T : forall s' w,
             fst (geometry mulberryNext p w (mulberry32 s'))
             = fst (geometry (tableStream (drawAt s')) p w 0%nat)
             /\ snd (geometry mulberryNext p w (mulberry32 s'))
                = (s' + Z.of_nat (snd (geometry (tableStream (drawAt s')) p w 0%nat))
                        * mulberryStep)%Z).
  { intros s' w.
    apply (sim_geometry _ _ _ (drawAt_sim s') p w).
    unfold mulberry32. cbn [Z.of_nat]. lia. }
  destruct (T s words) as [T1 T2]. fold run pure in T1, T2. fold g in T1.
  split; [exact T1 | split; [exact T2 | split; [ | split ]]].
  - unfold pure. rewrite (geometry_draws (drawAt s) p words 0). rewrite T1.
    reflexivity.
  - intros first second.
    destruct (sim_geometry _ _ _ (onFirst_sim mulberryNext (mulberry32 s)) p words
                (mulberry32 s) (mulberry32 s, mulberry32 s)) as [F1 [_ F3]];
      [split; reflexivity | ].
    fold run first in F1, F3. fold g in F1.
    split; [symmetry; exact F1 | ].
    destruct (sim_geometry _ _ _ (onSecond_sim mulberryNext (fst (snd first))) p words
                (mulberry32 s) (snd first)) as [G1 _];
      [split; [exact F3 | reflexivity] | ].
    fold run second in G1. symmetry. exact G1.
  - unfold generateSegments. cbv zeta. apply T.
Qed.

(** ** Dependence on the whole phrase *)

Lemma geometry_vector {E : Engine} {St : Type} (rnd : State St Q)
      (p1 p2 : SemagramParams) (words1 words2 : list string) :
  sameVector p1 p2 -> wordCount words1 = wordCount words2 ->
  geometry rnd p1 words1 = geometry rnd p2 words2.
Proof.
  intros V W. destruct p1, p2. unfold sameVector in V. cbn in V.
  destruct V as (-> & -> & -> & -> & -> & -> & -> & ->).
  unfold geometry. rewrite W. reflexivity.
Qed.

(** C1 (amended).  The geometry rendered for a request is a function of
    the hash of [seed|phrase], of the number of content words of the
    phrase and of the parameter vector alone: two requests that agree on
    these three render the same geometry. *)
Theorem geometry_function_of_phrase_hash {E : Engine} (p1 p2 : SemagramParams) :
  sameVector p1 p2 ->
  baseSeed p1 = baseSeed p2 ->
  wordCount (splitContentWords (proposition p1))
    = wordCount (splitContentWords (proposition p2)) ->
  generateSegments p1 = generateSegments p2.
Proof.
  intros V S W. unfold generateSegments. cbv zeta.
  rewrite S. now rewrite (geometry_vector mulberryNext p1 p2 _ _ V W).
Qed.

Lemma geometry_function_of_phrase_hash_witness :
  seed (request "cat" "costarring") <> seed (request "cat" "liquid")
  /\ @generateSegments polyEngine (request "cat" "costarring")
     = @generateSegments polyEngine (request "cat" "liquid").
Proof.
  split; [discriminate | ].
  apply geometry_function_of_phrase_hash.
  - repeat split.
  - vm_compute. reflexivity.
  - reflexivity.
Defined.

(** C1 as stated fails.  The requests [request "cat" "arrival"] and
    [request "cat sat" "arrival"] carry the same parameter vector and the
    same seed text and both contain the word "cat", yet their geometries
    differ (already in the ring gap): the seed of the generator is the
    hash of the whole phrase. *)
Lemma grapheme_depends_on_phrase :
  ~ (forall (p1 p2 : SemagramParams) (w : string),
        sameVector p1 p2 -> seed p1 = seed p2 ->
        In w (splitContentWords (proposition p1)) ->
        In w (splitContentWords (proposition p2)) ->
        @generateSegments polyEngine p1 = @generateSegments polyEngine p2).
Proof.
  intros H.
  specialize (H (request "cat" "arrival") (request "cat sat" "arrival") "cat").
  assert (G : @generateSegments polyEngine (request "cat" "arrival")
              = @generateSegments polyEngine (request "cat sat" "arrival")).
  { apply H.
    - repeat split.
    - reflexivity.
    - left. reflexivity.
    - left. reflexivity. }
  apply (f_equal ringGap) in G.
  unfold generateSegments in G. cbv zeta in G. rewrite !geometry_ringGap in G.
  vm_compute in G. discriminate G.
Qed.

(** ** Composite mode *)

Lemma mapi_length {A B : Type} (f : A -> nat -> B) (l : list A) (start : nat) :
  length (mapi f l start) = length l.
Proof.
  revert start. induction l as [|x l IH]; intros start; cbn [mapi length].
  - reflexivity.
  - now rewrite IH.
Qed.

Lemma mapi_nth {A B : Type} (f : A -> nat -> B) (l : list A) (start i : nat) :
  nth_error (mapi f l start) i
  = option_map (fun x => f x (start + i)%nat) (nth_error l i).
Proof.
  revert start i. induction l as [|x l IH]; intros start i.
  - destruct i; reflexivity.
  - destruct i as [|i]; cbn [mapi nth_error option_map].
    + now rewrite Nat.add_0_r.
    + rewrite IH. now rewrite Nat.add_succ_r.
Qed.

Lemma renderComposite_nth {E : Engine} (p : SemagramParams) (i : nat) (layer : Layer) :
  nth_error (renderComposite p) i = Some layer ->
  exists clause,
    nth_error (clausesOf (proposition p)) i = Some clause
    /\ layer = compositeLayer p (length (clausesOf (proposition p))) clause i.
Proof.
  unfold renderComposite. cbv zeta. rewrite mapi_nth. cbn [Nat.add].
  destruct (nth_error (clausesOf (proposition p)) i) as [clause|];
    cbn [option_map]; intros H; inversion H.
  exists clause. split; reflexivity.
Qed.

Lemma ofNat_pos (n : nat) : (0 < n)%nat -> 0 < ofNat n.
Proof.
  intros H. unfold ofNat. change 0 with (inject_Z 0). rewrite <- Zlt_Qlt. lia.
Qed.

(** The rotation written into the transform, in degrees. *)
Lemma compositeLayer_rotate {E : Engine} (p : SemagramParams) (n : nat)
      (clause : string) (i : nat) :
  (0 < n)%nat ->
  layer_rotate (compositeLayer p n clause i) == ofNat i * (360 / (7 * ofNat n)).
Proof.
  intros H. apply ofNat_pos in H.
  cbn [compositeLayer layer_rotate]. unfold compositeRot, TAU, Math_PI.
  field. lra.
Qed.

Lemma compositeRot_step (i n : nat) :
  (0 < n)%nat -> compositeRot i n == ofNat i * (TAU / (7 * ofNat n)).
Proof.
  intros H. apply ofNat_pos in H. unfold compositeRot. field. lra.
Qed.

Lemma compositeScale_decreasing (i j : nat) :
  (i < j)%nat -> compositeScale j < compositeScale i.
Proof.
  intros H. unfold compositeScale.
  assert (L : ofNat i + 1 <= ofNat j).
  { unfold ofNat. change 1 with (inject_Z 1). rewrite <- inject_Z_plus.
    rewrite <- Zle_Qle. lia. }
  lra.
Qed.

Lemma compositeOpacity_decreasing (i j : nat) :
  (i < j)%nat -> compositeOpacity j < compositeOpacity i.
Proof.
  intros H. unfold compositeOpacity.
  assert (L : ofNat i + 1 <= ofNat j).
  { unfold ofNat. change 1 with (inject_Z 1). rewrite <- inject_Z_plus.
    rewrite <- Zle_Qle. lia. }
  lra.
Qed.

(** C6 as stated fails: no single angular step fits all clause lists.
    With the two clauses of [request ("A" ++ newline ++ "B") "arrival"]
    the layer at index 1 is rotated by 180/7 degrees, with the three
    clauses of [request ("A" ++ newline ++ "B" ++ newline ++ "C") "arrival"]
    by 120/7 degrees. *)
Lemma composite_step_not_fixed :
  ~ exists step : Q,
      forall (p : SemagramParams) (i : nat) (layer : Layer),
        nth_error (@renderComposite polyEngine p) i = Some layer ->
        layer_rotate layer == ofNat i * step.
Proof.
  intros [step H].
  set (two := request ("A" ++ newline ++ "B") "arrival").
  set (three := request ("A" ++ newline ++ "B" ++ newline ++ "C") "arrival").
  assert (H2 : nth_error (@renderComposite polyEngine two) 1
               = Some (@compositeLayer polyEngine two 2 "B" 1)).
  { unfold renderComposite. cbv zeta. rewrite mapi_nth. reflexivity. }
  assert (H3 : nth_error (@renderComposite polyEngine three) 1
               = Some (@compositeLayer polyEngine three 3 "B" 1)).
  { unfold renderComposite. cbv zeta. rewrite mapi_nth. reflexivity. }
  apply H in H2. apply H in H3.
  rewrite compositeLayer_rotate in H2 by lia.
  rewrite compositeLayer_rotate in H3 by lia.
  assert (C : ofNat 1 * (360 / (7 * ofNat 2)) == ofNat 1 * (360 / (7 * ofNat 3)))
    by (rewrite H2, H3; reflexivity).
  vm_compute in C. discriminate C.
Qed.

(** C6 (amended).  In composite mode there is one layer per clause, in
    clause order.  With [n] clauses, the layer at index [i] is rotated by
    [i] times the angular step [TAU / (7 * n)] (360 / (7 * n) degrees in
    the transform): the step is fixed inside one rendering and depends on
    the number of clauses.  Its scale is [1 - 0.06 * i] and its opacity
    [1 - 0.07 * i], both strictly decreasing in the index.  For exactly
    two clauses the second layer is rotated by one step of [TAU / 14]
    (180/7 degrees) and its scale 0.94 is strictly less than the scale 1
    of the first. *)
Theorem composite_layers {E : Engine} (p : SemagramParams) :
  let clauses := clausesOf (proposition p) in
  let n := length clauses in
  let layers := renderComposite p in
  length layers = n
  /\ (forall i layer,
        nth_error layers i = Some layer ->
        nth_error clauses i = Some (proposition (layer_params layer))
        /\ layer_rotate layer = (compositeRot i n * 180) / Math_PI
        /\ compositeRot i n == ofNat i * (TAU / (7 * ofNat n))
        /\ layer_rotate layer == ofNat i * (360 / (7 * ofNat n))
        /\ layer_scale layer = Some (compositeScale i)
        /\ layer_opacity layer = compositeOpacity i)
  /\ (forall i j, (i < j)%nat ->
        compositeScale j < compositeScale i
        /\ compositeOpacity j < compositeOpacity i)
  /\ (forall a b, clauses = [a; b] ->
        exists first second,
          layers = [first; second]
          /\ layer_rotate first == 0
          /\ layer_rotate second == 360 / 14
          /\ compositeRot 1 2 == TAU / 14
          /\ layer_scale first = Some (compositeScale 0)
          /\ layer_scale second = Some (compositeScale 1)
          /\ compositeScale 0 == 1 /\ compositeScale 1 == 0.94
          /\ compositeScale 1 < compositeScale 0).
Proof.
  intros clauses n layers.
  split; [ | split; [ | split ]].
  - unfold layers, renderComposite. cbv zeta. apply mapi_length.
  - intros i layer H.
    apply renderComposite_nth in H. fold clauses n in H.
    destruct H as [clause [Hc ->]].
    assert (Hi : (i < n)%nat)
      by (apply nth_error_Some; rewrite Hc; discriminate).
    split; [exact Hc | ]. split; [reflexivity | ].
    split; [apply compositeRot_step; lia | ].
    split; [apply compositeLayer_rotate; lia | ].
    split; reflexivity.
  - intros i j Hij. split.
    + now apply compositeScale_decreasing.
    + now apply compositeOpacity_decreasing.
  - intros a b Hab.
    exists (compositeLayer p 2 a 0), (compositeLayer p 2 b 1).
    split.
    { unfold layers, renderComposite. cbv zeta. fold clauses. rewrite Hab.
      reflexivity. }
    split; [rewrite compositeLayer_rotate by lia; reflexivity | ].
    split; [rewrite compositeLayer_rotate by lia; reflexivity | ].
    split; [rewrite compositeRot_step by lia; unfold TAU, Math_PI; reflexivity | ].
    repeat split.
Qed.

(** ** More on the generator closure *)

(** In a loop that reads a table, iteration [j] starts at the position
    reached after [j] bodies of [c] draws each. *)
Lemma forLoop_table_nth {A : Type} (n start : nat) (body : nat -> State nat A)
      (c k0 j : nat) (x : A) :
  (forall i, uses (body i) c) ->
  nth_error (fst (forLoop n start body k0)) j = Some x ->
  x = fst (body (start + j)%nat (k0 + j * c)%nat).
Proof.
  intros U. revert start k0 j. induction n as [|n IH]; intros start k0 j H.
  - destruct j; discriminate.
  - cbn [forLoop] in H. unfold bind, ret in H. cbn [fst snd] in H.
    destruct j as [|j].
    + inversion H.
      replace (start + 0)%nat with start by lia.
      replace (k0 + 0 * c)%nat with k0 by lia. reflexivity.
    + cbn [nth_error] in H. apply IH in H. rewrite (U start k0) in H.
      subst x.
      replace (start + S j)%nat with (S start + j)%nat by lia.
      replace (k0 + S j * c)%nat with (k0 + c + j * c)%nat by lia. reflexivity.
Qed.

(** X1.  As long as the state stays within the integers that a double
    holds exactly (from [-2^53] to [2^53]), [n] successive calls of the
    closure [mulberry32 a] return [n] numbers and leave the state
    [a + n * 0x6d2b79f5]; call number [k] returns [drawAt a k], whatever was
    drawn before, and that number is [m / 2^32] for an unsigned 32-bit
    integer [m], hence in [0, 1). *)
Theorem mulberry32_calls (a : Z) (n : nat) :
  (-9007199254740992 <= a)%Z ->
  (a + Z.of_nat n * mulberryStep <= 9007199254740992)%Z ->
  let r := callTimes n mulberryNext (mulberry32 a) in
  length (fst r) = n
  /\ snd r = (a + Z.of_nat n * mulberryStep)%Z
  /\ (forall k u, nth_error (fst r) k = Some u ->
        u = drawAt a k
        /\ 0 <= u < 1
        /\ exists m : Z, (0 <= m < 4294967296)%Z /\ u = inject_Z m / 4294967296).
Proof.
  intros Hlo Hhi r.
  assert (S : sim (fun st k => st = (a + Z.of_nat k * mulberryStep)%Z)
                  (callTimes n mulberryNext)
                  (callTimes n (tableStream (drawAt a)))).
  { unfold callTimes. apply sim_forLoop. intros _. apply drawAt_sim. }
  destruct (S (mulberry32 a) 0%nat) as [S1 S2].
  { unfold mulberry32. cbn [Z.of_nat]. lia. }
  cbv beta in S2. fold r in S1, S2.
  assert (U : uses (callTimes n (tableStream (drawAt a))) (n * 1)).
  { unfold callTimes. apply uses_forLoop. intros _. apply uses_table. }
  split; [ | split ].
  - unfold r, callTimes. apply forLoop_length.
  - apply (eq_trans S2). rewrite (U 0%nat). f_equal. lia.
  - intros k u H.
    assert (H' : nth_error (fst (callTimes n (tableStream (drawAt a)) 0%nat)) k
                 = Some u) by (rewrite <- S1; exact H).
    clear H. rename H' into H. unfold callTimes in H.
    apply (forLoop_table_nth _ _ _ 1) in H; [ | intros _; apply uses_table ].
    unfold tableStream in H. cbn [fst Nat.add] in H.
    rewrite Nat.mul_1_r in H. subst u.
    split; [reflexivity | ]. split; [apply mulberryNext_unit | ].
    exists (mulberryMix (a + Z.of_nat k * mulberryStep + mulberryStep)).
    split; [apply mulberryMix_range | reflexivity].
Qed.

Lemma mulberry32_calls_witness :
  let r := callTimes 3 mulberryNext (mulberry32 415027842) in
  ((-9007199254740992 <= 415027842)%Z
   /\ (415027842 + Z.of_nat 3 * mulberryStep <= 9007199254740992)%Z)
  /\ length (fst r) = 3%nat
  /\ snd r = 5909725281%Z.
Proof.
  intros r.
  assert (Hlo : (-9007199254740992 <= 415027842)%Z) by lia.
  assert (Hhi : (415027842 + Z.of_nat 3 * mulberryStep <= 9007199254740992)%Z)
    by (unfold mulberryStep; lia).
  split; [split; assumption | ].
  destruct (mulberry32_calls 415027842 3 Hlo Hhi) as (L & S & _).
  split; [exact L | exact S].
Defined.

(** ** More on the hash *)

Lemma toInt32_cong (a b : Z) : toUint32 a = toUint32 b -> toInt32 a = toInt32 b.
Proof.
  unfold toUint32, toInt32. intros H.
  rewrite (Z.add_mod a), (Z.add_mod b), H by lia. reflexivity.
Qed.

Lemma hashStep_cong (h1 h2 c : Z) :
  toUint32 h1 = toUint32 h2 -> hashStep h1 c = hashStep h2 c.
Proof.
  intros H. unfold hashStep, xor32. now rewrite (toInt32_cong h1 h2 H).
Qed.

Lemma hashFold_cong (codes : list Z) (h1 h2 : Z) :
  toUint32 h1 = toUint32 h2 ->
  toUint32 (fold_left hashStep codes h1) = toUint32 (fold_left hashStep codes h2).
Proof.
  revert h1 h2. induction codes as [|c codes IH]; intros h1 h2 H.
  - exact H.
  - cbn [fold_left]. apply IH. now rewrite (hashStep_cong h1 h2 c H).
Qed.

Lemma charCodes_app (a b : string) :
  charCodes (a ++ b) = (charCodes a ++ charCodes b)%list.
Proof.
  unfold charCodes. rewrite <- map_app. f_equal.
  induction a as [|c a IH]; cbn; [reflexivity | now rewrite IH].
Qed.

Lemma hashCodeUnits_state (codes : list Z) :
  hashCodeUnits codes
  = if (toUint32 (hashState codes) =? 0)%Z then 1%Z else toUint32 (hashState codes).
Proof. unfold hashCodeUnits, hashState. cbv zeta. now rewrite ushr_0. Qed.

(** The hash value, unless it is the substituted 1, determines the state
    of the loop up to 2^32. *)
Lemma hash_state_cong (c1 c2 : list Z) :
  hashCodeUnits c1 = hashCodeUnits c2 -> hashCodeUnits c1 <> 1%Z ->
  toUint32 (hashState c1) = toUint32 (hashState c2).
Proof.
  rewrite !hashCodeUnits_state. intros H N.
  destruct (Z.eqb_spec (toUint32 (hashState c1)) 0) as [E1|E1]; [congruence | ].
  destruct (Z.eqb_spec (toUint32 (hashState c2)) 0) as [E2|E2]; congruence.
Qed.

(** X2.  Two texts with the same hash value other than 1 stay
    indistinguishable when both are extended by the same suffix; hence two
    seed texts with such a hash give every proposition the same base seed
    and, with the same parameters, the same geometry. *)
Theorem seed_collision_extends {E : Engine} (seed1 seed2 : string) :
  hashStringToInt seed1 = hashStringToInt seed2 ->
  hashStringToInt seed1 <> 1%Z ->
  (forall suffix,
      hashStringToInt (seed1 ++ suffix) = hashStringToInt (seed2 ++ suffix))
  /\ (forall p,
        baseSeed (withSeed p seed1) = baseSeed (withSeed p seed2)
        /\ generateSegments (withSeed p seed1) = generateSegments (withSeed p seed2)).
Proof.
  intros H N.
  assert (X : forall suffix,
             hashStringToInt (seed1 ++ suffix) = hashStringToInt (seed2 ++ suffix)).
  { intros suffix. unfold hashStringToInt in *.
    rewrite !charCodes_app, !hashCodeUnits_state.
    pose proof (hash_state_cong _ _ H N) as C.
    unfold hashState in *. rewrite !fold_left_app.
    now rewrite (hashFold_cong (charCodes suffix) _ _ C). }
  split; [exact X | ].
  intros p.
  assert (B : baseSeed (withSeed p seed1) = baseSeed (withSeed p seed2))
    by (unfold baseSeed, withSeed; cbn [seed proposition]; apply X).
  split; [exact B | ].
  unfold generateSegments. cbv zeta. rewrite B. cbn [proposition withSeed].
  now rewrite (geometry_vector mulberryNext (withSeed p seed1) (withSeed p seed2)
                 _ _ ltac:(repeat split) eq_refl).
Qed.

Lemma seed_collision_extends_witness :
  hashStringToInt "costarring" = hashStringToInt "liquid"
  /\ @generateSegments polyEngine (withSeed defaultParams "costarring")
     = @generateSegments polyEngine (withSeed defaultParams "liquid").
Proof.
  assert (H : hashStringToInt "costarring" = hashStringToInt "liquid")
    by (vm_compute; reflexivity).
  assert (N : hashStringToInt "costarring" <> 1%Z)
    by (vm_compute; discriminate).
  split; [exact H | ].
  exact (proj2 (proj2 (@seed_collision_extends polyEngine _ _ H N) defaultParams)).
Defined.

(** ** Interpolation and clamping *)


(** X4.  [clamp n lo hi] is never below [lo]; with [lo <= hi] it lies in
    [lo, hi] and leaves the numbers of that interval unchanged; with
    [hi < lo] it is [lo] whatever [n] is; clamping twice is clamping
    once. *)
Theorem clamp_behaviour (n lo hi : Q) :
  lo <= clamp n lo hi
  /\ (lo <= hi -> clamp n lo hi <= hi)
  /\ (lo <= n <= hi -> clamp n lo hi == n)
  /\ (hi < lo -> clamp n lo hi == lo)
  /\ clamp (clamp n lo hi) lo hi == clamp n lo hi.
Proof.
  split; [apply Q.le_max_l | ].
  split; [intros H; now apply clamp_bounds | ].
  split; [apply clamp_inside | ].
  assert (B : hi < lo -> clamp n lo hi == lo).
  { intros H. unfold clamp. apply Q.max_l.
    apply Qle_trans with hi; [apply Q.le_min_l | lra]. }
  split; [exact B | ].
  destruct (Qlt_le_dec hi lo) as [L | L].
  - rewrite (B L). unfold clamp. apply Q.max_l.
    apply Qle_trans with hi; [apply Q.le_min_l | lra].
  - apply clamp_inside. now apply clamp_bounds.
Qed.

(** ** The spoke table *)

Lemma spokeIndex_ofNat (n : nat) :
  spokeIndex (ofNat n) = Z.max 0 (Z.min 5 ((Z.of_nat n - 3) / 3)).
Proof.
  unfold spokeIndex. f_equal. f_equal.
  rewrite Zdiv_Qdiv. apply Qfloor_comp.
  unfold ofNat, Z.sub. rewrite inject_Z_plus, inject_Z_opp. reflexivity.
Qed.

Lemma chooseSpokes_spokesFor (n : nat) :
  chooseSpokes (ofNat n) = Some (spokesFor n).
Proof.
  rewrite chooseSpokes_index, spokeIndex_ofNat. unfold spokesFor.
  pose proof (Z.div_mod (Z.of_nat n - 3) 3 ltac:(lia)) as D.
  pose proof (Z.mod_pos_bound (Z.of_nat n - 3) 3 ltac:(lia)) as M.
  set (q := ((Z.of_nat n - 3) / 3)%Z) in *.
  repeat match goal with
         | |- context [(?a <? ?b)%nat] => destruct (Nat.ltb_spec a b)
         end.
  - replace (Z.max 0 (Z.min 5 q)) with 0%Z by lia. reflexivity.
  - replace (Z.max 0 (Z.min 5 q)) with 1%Z by lia. reflexivity.
  - replace (Z.max 0 (Z.min 5 q)) with 2%Z by lia. reflexivity.
  - replace (Z.max 0 (Z.min 5 q)) with 3%Z by lia. reflexivity.
  - replace (Z.max 0 (Z.min 5 q)) with 4%Z by lia. reflexivity.
  - replace (Z.max 0 (Z.min 5 q)) with 5%Z by lia. reflexivity.
Qed.

(** X5.  For a count of [n] content words the spoke count is 7 up to five
    words, then 9, 11, 13, 17 for each further group of three words, and 19
    from eighteen words on; the generated geometry carries that count for
    the content words of its proposition (none counting as one). *)
Theorem chooseSpokes_thresholds {E : Engine} (n : nat) (p : SemagramParams) :
  chooseSpokes (ofNat n) = Some (spokesFor n)
  /\ spokes (generateSegments p)
     = Some (spokesFor (length (splitContentWords (proposition p)))).
Proof.
  split; [apply chooseSpokes_spokesFor | ].
  rewrite (generate_spokes p), wordCount_nonzero, chooseSpokes_spokesFor.
  destruct (length (splitContentWords (proposition p))) as [|m]; reflexivity.
Qed.

(** ** More on the tokenizer *)

Lemma lowerChar_wordChar (c : ascii) : isWordChar c = true -> lowerChar c = c.
Proof.
  destruct c as [[] [] [] [] [] [] [] []]; vm_compute; intros H;
    first [reflexivity | discriminate H].
Qed.

Lemma toLowerCase_app (a b : string) :
  toLowerCase (a ++ b) = toLowerCase a ++ toLowerCase b.
Proof. induction a as [|c a IH]; cbn; [reflexivity | now rewrite IH]. Qed.

Lemma toLowerCase_wordChars (w : string) :
  Forall (fun c => isWordChar c = true) (chars w) -> toLowerCase w = w.
Proof.
  unfold chars. induction w as [|c w IH]; cbn; intros H; [reflexivity | ].
  inversion H; subst. rewrite lowerChar_wordChar by assumption.
  now rewrite IH.
Qed.

(** Every run returned by [matchRuns] is a non-empty string of word
    characters, provided the run being read is. *)
Lemma matchRuns_words (s : string) (cur : list ascii) (w : string) :
  Forall (fun c => isWordChar c = true) cur ->
  In w (matchRuns s cur) ->
  w <> "" /\ Forall (fun c => isWordChar c = true) (chars w).
Proof.
  assert (W : forall cur, cur <> [] ->
            Forall (fun c => isWordChar c = true) cur ->
            string_of_list_ascii (rev cur) <> ""
            /\ Forall (fun c => isWordChar c = true)
                      (chars (string_of_list_ascii (rev cur)))).
  { intros l Hne Hl. split.
    - intros E. apply (f_equal list_ascii_of_string) in E.
      rewrite list_ascii_of_string_of_list_ascii in E. cbn in E.
      apply (f_equal (@rev ascii)) in E. rewrite rev_involutive in E.
      cbn in E. contradiction.
    - unfold chars. rewrite list_ascii_of_string_of_list_ascii.
      now apply Forall_rev. }
  revert cur. induction s as [|c s IH]; intros cur Hcur Hin.
  - cbn [matchRuns] in Hin. destruct cur as [|c0 cur]; [destruct Hin | ].
    destruct Hin as [<- | []]. apply W; [discriminate | assumption].
  - cbn [matchRuns] in Hin. destruct (isWordChar c) eqn:Hc.
    + apply (IH (c :: cur)); [constructor; assumption | assumption].
    + destruct cur as [|c0 cur].
      * apply (IH []); [constructor | assumption].
      * destruct Hin as [<- | Hin].
        -- apply W; [discriminate | assumption].
        -- apply (IH []); [constructor | assumption].
Qed.

(** X6.  Every content word returned for a text is non-empty, consists of
    characters of [a-z0-9'] only, is already in lower case and is none of
    the ten stop words. *)
Theorem splitContentWords_words (text w : string) :
  In w (splitContentWords text) ->
  w <> ""
  /\ Forall (fun c => isWordChar c = true) (chars w)
  /\ toLowerCase w = w
  /\ ~ In w stopWords.
Proof.
  unfold splitContentWords. intros H. apply filter_In in H.
  destruct H as [Hin Hstop].
  destruct (matchRuns_words _ _ _ (Forall_nil _) Hin) as [Hne Hw].
  split; [exact Hne | split; [exact Hw | split]].
  - now apply toLowerCase_wordChars.
  - intros Hs. apply negb_true_iff in Hstop. unfold includes in Hstop.
    assert (T : existsb (String.eqb w) stopWords = true).
    { apply existsb_exists. exists w. split; [exact Hs | apply String.eqb_refl]. }
    congruence.
Qed.

Lemma splitContentWords_words_witness :
  In "knew" (splitContentWords (proposition defaultParams))
  /\ toLowerCase "knew" = "knew" /\ ~ In "knew" stopWords.
Proof.
  assert (H : In "knew" (splitContentWords (proposition defaultParams)))
    by (vm_compute; tauto).
  destruct (splitContentWords_words _ _ H) as (_ & _ & L & S).
  split; [exact H | split; assumption].
Defined.

Lemma matchRuns_separator (s1 s2 : string) (c : ascii) (cur : list ascii) :
  isWordChar c = false ->
  matchRuns (s1 ++ String c s2) cur
  = (matchRuns s1 cur ++ matchRuns s2 [])%list.
Proof.
  intros Hc. revert cur. induction s1 as [|a s1 IH]; intros cur.
  - cbn [append matchRuns]. rewrite Hc. destruct cur; reflexivity.
  - cbn [append matchRuns]. destruct (isWordChar a).
    + apply IH.
    + destruct cur; [apply IH | cbn [app]; f_equal; apply IH].
Qed.

(** X7.  For texts of code units below 256 (the texts of this model):
    tokenizing two texts joined by one code unit below 256 whose lower-case
    form is outside [a-z0-9'] gives the words of the first followed by the
    words of the second: such a separator never ends up in a word and
    never merges two words.  (Code units from 256 on are outside the
    statement; some of them, like U+212A, are lowered to a letter.) *)
Theorem splitContentWords_join (text1 text2 : string) (c : ascii) :
  isWordChar (lowerChar c) = false ->
  splitContentWords (text1 ++ String c text2)
  = (splitContentWords text1 ++ splitContentWords text2)%list.
Proof.
  intros Hc. unfold splitContentWords.
  rewrite toLowerCase_app. cbn [toLowerCase].
  rewrite matchRuns_separator by exact Hc. apply filter_app.
Qed.

Lemma splitContentWords_join_witness :
  splitContentWords ("the cat" ++ String ","%char " a hat")
  = (splitContentWords "the cat" ++ splitContentWords " a hat")%list.
Proof. apply splitContentWords_join. reflexivity. Defined.

(** ** The draws behind each element *)

Lemma generate_table {E : Engine} (p : SemagramParams) :
  generateSegments p
  = fst (geometry (tableStream (drawAt (baseSeed p))) p
                  (splitContentWords (proposition p)) 0%nat).
Proof.
  unfold generateSegments. cbv zeta.
  apply (sim_geometry _ _ _ (drawAt_sim (baseSeed p))).
  unfold mulberry32. cbn [Z.of_nat]. lia.
Qed.

Section Positions.

Context {E : Engine}.
Variable p : SemagramParams.

Let g : Geometry := generateSegments p.
Let draw : nat -> Q := drawAt (baseSeed p).
Let nSpokes : nat := spokeLoop (spokes g).
Let nRings : nat := loopCount (rings g).

Lemma table_segments :
  segments g
  = fst (forLoop nRings 0
           (ringBody (tableStream draw) p (spokes g) (radiusBase g) (ringGap g))
           2%nat).
Proof. unfold g at 1. rewrite generate_table. unfold nRings, g. rewrite generate_table. reflexivity. Qed.

Lemma table_connectors :
  connectors g
  = fst (forLoop (loopCount (rings g - 1)) 0
           (connectorRing (tableStream draw) p (spokes g) (radiusBase g) (ringGap g))
           (2 + nRings * (1 + nSpokes * 3))%nat).
Proof.
  unfold g at 1. rewrite generate_table. unfold nRings, nSpokes, g.
  rewrite generate_table.
  unfold geometry at 1. unfold bind. cbn [fst snd ret connectors].
  rewrite (uses_forLoop _ _ _ (1 + spokeLoop (chooseSpokes (wordCount (splitContentWords (proposition p)))) * 3))
    by (intros i; apply uses_ringBody).
  reflexivity.
Qed.

(** Segment [s] of ring [i] is computed from four draws at fixed
    positions: the bias draw of the ring and the three draws of the
    segment (span jitter, direction, opacity), in this order. *)
Lemma segment_from_draws (i s : nat) (seg : Segment) :
  segmentAt g i s seg ->
  let j := segmentDraw nSpokes i s in
  let bias := lerp (-0.6) 0.6 (modality p)
              + (draw (biasDraw nSpokes i) - 0.5) * 0.2 in
  let a0 := (TAU * ofNat s) / spokeNum (spokes g) + bias * 0.2 in
  let span := lerp 0.7 1.55 (temporality p)
              + (draw j - 0.5) * (0.25 + temporality p * 0.35) in
  let direction := if Qgtb (draw (S j)) 0.5 then 1 else -1 in
  seg_d seg = arcPath 0 0 (radiusBase g + ofNat i * ringGap g)
                      (a0 + perspRot p) (a0 + span * direction + perspRot p)
  /\ seg_w seg = strokeWidth p i
  /\ seg_dash seg = dashPattern p
  /\ seg_opacity seg
     = clamp (0.7 + (draw (S (S j)) - 0.5) * 0.1 + (agency p - 0.5) * 0.1) 0.45 1.
Proof.
  intros [ring [Hr Hs]]. rewrite table_segments in Hr.
  apply (forLoop_table_nth _ _ _ (1 + nSpokes * 3)) in Hr;
    [ | intros k; apply uses_ringBody ].
  rewrite Nat.add_0_l in Hr. fold (biasDraw nSpokes i) in Hr. subst ring.
  unfold ringBody, bind in Hs. cbn [fst snd] in Hs.
  apply (forLoop_table_nth _ _ _ 3) in Hs;
    [ | intros k; apply uses_segmentBody ].
  rewrite Nat.add_0_l in Hs.
  match type of Hs with
  | _ = fst (segmentBody _ _ _ _ _ _ _ ?st) =>
      replace st with (segmentDraw nSpokes i s) in Hs
        by (unfold segmentDraw, tableStream; cbn [snd]; lia)
  end.
  subst seg. unfold segmentBody, bind, ret, tableStream. cbn [fst snd].
  cbv zeta. cbn [seg_d seg_w seg_dash seg_opacity].
  repeat split.
Qed.

(** Connector [s] of connector ring [i] is computed from one draw, which
    comes after all the draws of the rings. *)
Lemma connector_from_draws (i s : nat) (c : Connector) :
  connectorAt g i s c ->
  let a := (TAU * ofNat s) / spokeNum (spokes g)
           + (draw (connectorDraw nRings nSpokes i s) - 0.5) * 0.03 in
  {| pt_x := conn_x1 c; pt_y := conn_y1 c |}
    = polar 0 0 (radiusBase g + ofNat i * ringGap g) a
  /\ {| pt_x := conn_x2 c; pt_y := conn_y2 c |}
    = polar 0 0 (radiusBase g + (ofNat i + 1) * ringGap g) a
  /\ conn_w c = lerp 0.6 2.2 (certainty p)
  /\ conn_opacity c = 0.25 + temporality p * 0.25.
Proof.
  intros [conns [Hr Hs]]. rewrite table_connectors in Hr.
  apply (forLoop_table_nth _ _ _ nSpokes) in Hr;
    [ | intros k; apply uses_connectorRing ].
  rewrite Nat.add_0_l in Hr. subst conns.
  unfold connectorRing in Hs.
  apply (forLoop_table_nth _ _ _ 1) in Hs.
  2:{ intros k. unfold connectorBody. change 1%nat with (1 + 0)%nat.
      apply uses_bind; [apply uses_table | intros u; apply uses_ret]. }
  rewrite Nat.add_0_l in Hs.
  match type of Hs with
  | _ = fst (connectorBody _ _ _ _ _ _ ?st) =>
      replace st with (connectorDraw nRings nSpokes i s) in Hs
        by (unfold connectorDraw; lia)
  end.
  subst c. unfold connectorBody, bind, ret, tableStream. cbn [fst snd].
  cbv zeta. cbn [conn_x1 conn_y1 conn_x2 conn_y2 conn_w conn_opacity].
  repeat split.
Qed.

End Positions.

Lemma segmentAt_exists {E : Engine} (p : SemagramParams) (i s : nat) :
  let g := generateSegments p in
  (i < loopCount (rings g))%nat -> (s < spokeLoop (spokes g))%nat ->
  exists seg, segmentAt g i s seg.
Proof.
  intros g Hi Hs.
  pose proof (generate_segments_length p) as L. cbv zeta in L.
  pose proof (generate_rings_Z p) as RZ. cbv zeta in RZ.
  pose proof (loopCount_Z _ _ RZ) as LZ. fold g in LZ, L.
  destruct (nth_error (segments g) i) as [ring|] eqn:N.
  - pose proof (generate_ring_lengths p) as F. cbv zeta in F.
    rewrite Forall_forall in F.
    specialize (F ring (nth_error_In _ _ N)). cbv beta in F.
    destruct (nth_error ring s) as [seg|] eqn:M.
    + exists seg, ring. split; assumption.
    + apply nth_error_None in M. fold g in F. lia.
  - apply nth_error_None in N. fold g in N. lia.
Qed.

(** X8.  The draws of one generation are used in a fixed order.  Draw 0
    decides the ring count and draw 1 the ring gap; ring [i] takes its bias
    from draw [2 + i * (1 + 3 * spokes)]; segment [s] of that ring takes its
    span jitter, its direction and its opacity from the next three draws
    after [3 * s] further ones; connector [s] of connector ring [i] takes
    its angle from draw [2 + rings * (1 + 3 * spokes) + i * spokes + s].
    Every position below the ring and spoke counts holds a segment, whose
    path, width, dash and opacity are the given functions of those
    draws. *)
Theorem elements_from_draws {E : Engine} (p : SemagramParams) :
  let g := generateSegments p in
  let draw := drawAt (baseSeed p) in
  let nSpokes := spokeLoop (spokes g) in
  let nRings := loopCount (rings g) in
  rings g = clamp (3 + Math_floor (temporality p * 3 + draw 0%nat * 2)) 3 7
  /\ ringGap g = 28 + draw 1%nat * 6
  /\ (forall i s, (i < nRings)%nat -> (s < nSpokes)%nat ->
        exists seg, segmentAt g i s seg)
  /\ (forall i s seg,
        segmentAt g i s seg ->
        let j := segmentDraw nSpokes i s in
        let bias := lerp (-0.6) 0.6 (modality p)
                    + (draw (biasDraw nSpokes i) - 0.5) * 0.2 in
        let a0 := (TAU * ofNat s) / spokeNum (spokes g) + bias * 0.2 in
        let span := lerp 0.7 1.55 (temporality p)
                    + (draw j - 0.5) * (0.25 + temporality p * 0.35) in
        let direction := if Qgtb (draw (S j)) 0.5 then 1 else -1 in
        seg_d seg = arcPath 0 0 (radiusBase g + ofNat i * ringGap g)
                            (a0 + perspRot p) (a0 + span * direction + perspRot p)
        /\ seg_w seg = strokeWidth p i
        /\ seg_dash seg = dashPattern p
        /\ seg_opacity seg
           = clamp (0.7 + (draw (S (S j)) - 0.5) * 0.1 + (agency p - 0.5) * 0.1)
                   0.45 1)
  /\ (forall i s c,
        connectorAt g i s c ->
        let a := (TAU * ofNat s) / spokeNum (spokes g)
                 + (draw (connectorDraw nRings nSpokes i s) - 0.5) * 0.03 in
        {| pt_x := conn_x1 c; pt_y := conn_y1 c |}
          = polar 0 0 (radiusBase g + ofNat i * ringGap g) a
        /\ {| pt_x := conn_x2 c; pt_y := conn_y2 c |}
          = polar 0 0 (radiusBase g + (ofNat i + 1) * ringGap g) a
        /\ conn_w c = lerp 0.6 2.2 (certainty p)
        /\ conn_opacity c = 0.25 + temporality p * 0.25).
Proof.
  intros g draw nSpokes nRings.
  split; [ | split; [ | split; [ | split ]]].
  - apply (generate_rings p).
  - unfold g. rewrite generate_table. reflexivity.
  - intros i s Hi Hs. now apply segmentAt_exists.
  - intros i s seg H. exact (segment_from_draws p i s seg H).
  - intros i s c H. exact (connector_from_draws p i s c H).
Qed.

(** ** Arcs, opacities, dashes, connectors *)

Lemma drawAt_unit (s : Z) (k : nat) : 0 <= drawAt s k < 1.
Proof. unfold drawAt. apply mulberryNext_unit. Qed.



Lemma segmentAt_opacity {E : Engine} (p : SemagramParams) (i s : nat) (seg : Segment) :
  segmentAt (generateSegments p) i s seg ->
  seg_opacity seg
  = clamp (0.7 + (drawAt (baseSeed p)
                    (S (S (segmentDraw (spokeLoop (spokes (generateSegments p))) i s)))
                  - 0.5) * 0.1
           + (agency p - 0.5) * 0.1) 0.45 1.
Proof.
  intros H. now destruct (segment_from_draws p i s seg H) as (_ & _ & _ & O).
Qed.

(** X10.  Two requests that differ in the agency alone give the segment at
    every position an opacity that is nondecreasing in the agency (the
    same draw is used for both); the opacity is always in [0.45, 1]; with
    the agency in [0,1] the clamp is idle, the opacity being the clamped
    expression itself, well inside the clamp range: between 0.59 and
    0.81. *)
Theorem opacity_monotone_in_agency {E : Engine} (p : SemagramParams) (a a' : Q) :
  a <= a' ->
  (forall i s seg seg',
      segmentAt (generateSegments (withAgency p a)) i s seg ->
      segmentAt (generateSegments (withAgency p a')) i s seg' ->
      seg_opacity seg <= seg_opacity seg')
  /\ (forall i s seg,
        segmentAt (generateSegments p) i s seg ->
        0.45 <= seg_opacity seg <= 1
        /\ (inUnit (agency p) ->
            seg_opacity seg
            == 0.7 + (drawAt (baseSeed p)
                        (S (S (segmentDraw (spokeLoop (spokes (generateSegments p)))
                                           i s)))
                      - 0.5) * 0.1
               + (agency p - 0.5) * 0.1
            /\ 0.59 <= seg_opacity seg <= 0.81)).
Proof.
  intros L. split.
  - intros i s seg seg' H H'.
    rewrite (segmentAt_opacity _ i s seg H), (segmentAt_opacity _ i s seg' H').
    change (baseSeed (withAgency p a')) with (baseSeed (withAgency p a)).
    change (spokes (generateSegments (withAgency p a')))
      with (spokes (generateSegments (withAgency p a))).
    apply clamp_mono. cbn [agency withAgency]. lra.
  - intros i s seg H. rewrite (segmentAt_opacity _ i s seg H).
    split; [apply clamp_bounds; discriminate | ].
    intros Ha. unfold inUnit in Ha.
    pose proof (drawAt_unit (baseSeed p)
                  (S (S (segmentDraw (spokeLoop (spokes (generateSegments p))) i s))))
      as U.
    set (u := drawAt _ _) in *.
    rewrite clamp_inside by lra. split; [reflexivity | lra].
Qed.

Lemma opacity_monotone_in_agency_witness :
  0.2 <= 0.9
  /\ forall i s seg seg',
      segmentAt (@generateSegments polyEngine (withAgency defaultParams 0.2)) i s seg ->
      segmentAt (@generateSegments polyEngine (withAgency defaultParams 0.9)) i s seg' ->
      seg_opacity seg <= seg_opacity seg'.
Proof.
  assert (H : 0.2 <= 0.9) by discriminate.
  split; [exact H | ].
  exact (proj1 (@opacity_monotone_in_agency polyEngine defaultParams 0.2 0.9 H)).
Defined.

(** X11.  A segment is drawn solid exactly when neither [negation] nor
    [hypothetical] is set; otherwise all segments of the geometry carry the
    same dash pattern, the one of the flags and the certainty. *)
Theorem dash_follows_flags {E : Engine} (p : SemagramParams) (i s : nat)
        (seg : Segment) :
  segmentAt (generateSegments p) i s seg ->
  seg_dash seg = dashPattern p
  /\ (seg_dash seg = None <-> negation p = false /\ hypothetical p = false).
Proof.
  intros H. destruct (segment_from_draws p i s seg H) as (_ & _ & D & _).
  split; [exact D | ]. rewrite D. unfold dashPattern.
  destruct (negation p), (hypothetical p); cbn; split;
    first [ intros [? ?]; discriminate | intros ?; discriminate
          | intros ?; split; reflexivity | intros ?; reflexivity ].
Qed.

Lemma dash_follows_flags_witness :
  exists seg,
    segmentAt (@generateSegments polyEngine defaultParams) 0 0 seg
    /\ seg_dash seg = None.
Proof.
  destruct (@segmentAt_exists polyEngine defaultParams 0 0) as [seg H];
    [vm_compute; lia | vm_compute; lia | ].
  exists seg. split; [exact H | ].
  apply (proj2 (@dash_follows_flags polyEngine defaultParams 0 0 seg H)).
  split; reflexivity.
Defined.

(** X12.  With certainty and temporality in [0,1], all connectors of the
    generated geometry have one stroke width, in [0.6, 2.2], and one
    opacity, in [0.25, 0.5]. *)
Theorem connectors_uniform {E : Engine} (p : SemagramParams) :
  inUnit (certainty p) -> inUnit (temporality p) ->
  forall i s c,
    connectorAt (generateSegments p) i s c ->
    conn_w c = lerp 0.6 2.2 (certainty p)
    /\ conn_opacity c = 0.25 + temporality p * 0.25
    /\ 0.6 <= conn_w c <= 2.2
    /\ 0.25 <= conn_opacity c <= 0.5.
Proof.
  unfold inUnit. intros Hc Ht i s c H.
  destruct (connector_from_draws p i s c H) as (_ & _ & W & O).
  rewrite W, O. split; [reflexivity | split; [reflexivity | ]].
  split; [apply lerp_range; [discriminate | exact Hc] | lra].
Qed.

Lemma connectors_uniform_witness :
  (inUnit (certainty defaultParams) /\ inUnit (temporality defaultParams))
  /\ forall i s c,
      connectorAt (@generateSegments polyEngine defaultParams) i s c ->
      0.6 <= conn_w c <= 2.2 /\ 0.25 <= conn_opacity c <= 0.5.
Proof.
  assert (Hc : inUnit (certainty defaultParams)) by (split; discriminate).
  assert (Ht : inUnit (temporality defaultParams)) by (split; discriminate).
  split; [split; assumption | ].
  intros i s c H.
  exact (proj2 (proj2 (@connectors_uniform polyEngine defaultParams Hc Ht i s c H))).
Defined.

(** X13.  Every ring of the generated geometry has a radius of at least
    100 and below 304: with half the largest stroke width added it stays
    inside the background circle of radius 320. *)
Theorem rings_fit_canvas {E : Engine} (p : SemagramParams) (i : nat)
        (ring : list Segment) :
  nth_error (segments (generateSegments p)) i = Some ring ->
  let g := generateSegments p in
  let r := radiusBase g + ofNat i * ringGap g in
  (forall seg, In seg ring -> exists a0 a1, seg_d seg = arcPath 0 0 r a0 a1)
  /\ 100 <= r < 304
  /\ r + 3.5 < 320.
Proof.
  intros H g r.
  assert (Hi : (i < length (segments g))%nat)
    by (apply nth_error_Some; unfold g; rewrite H; discriminate).
  pose proof (generate_segments_length p) as L. cbv zeta in L. fold g in L.
  pose proof (ringCount_range (temporality p) (drawAt (baseSeed p) 0)) as RR.
  pose proof (generate_ringGap p) as G. cbv zeta in G. fold g in G.
  assert (I : 0 <= ofNat i <= 6).
  { unfold ofNat. change 0 with (inject_Z 0). change 6 with (inject_Z 6).
    rewrite <- !Zle_Qle. lia. }
  assert (B : radiusBase g == 100) by reflexivity.
  split.
  - intros seg Hs. now destruct (generate_segment_at p i ring seg H Hs).
  - assert (P : 0 <= ofNat i * ringGap g <= 6 * ringGap g) by nra.
    unfold r. rewrite B. split; [split | ]; lra.
Qed.

Lemma rings_fit_canvas_witness :
  exists ring,
    nth_error (segments (@generateSegments polyEngine defaultParams)) 4 = Some ring
    /\ let g := @generateSegments polyEngine defaultParams in
       radiusBase g + ofNat 4 * ringGap g + 3.5 < 320.
Proof.
  destruct (nth_error (segments (@generateSegments polyEngine defaultParams)) 4)
    as [ring|] eqn:N.
  - exists ring. split; [reflexivity | ].
    exact (proj2 (proj2 (@rings_fit_canvas polyEngine defaultParams 4 ring N))).
  - apply nth_error_None in N.
    pose proof (@generate_segments_length polyEngine defaultParams) as L.
    cbv zeta in L.
    assert (V : Z.to_nat (ringCount (temporality defaultParams)
                            (drawAt (@baseSeed defaultParams) 0)) = 5%nat)
      by (vm_compute; reflexivity).
    rewrite L, V in N. lia.
Defined.

(** ** The downloaded text *)

Lemma stripPrefix_app (pre rest : string) : stripPrefix pre (pre ++ rest) = Some rest.
Proof.
  induction pre as [|a pre IH]; cbn; [reflexivity | ].
  now rewrite Ascii.eqb_refl.
Qed.

Lemma stripPrefix_Some (pre s rest : string) :
  stripPrefix pre s = Some rest -> s = pre ++ rest.
Proof.
  revert s. induction pre as [|a pre IH]; intros s H; cbn in *.
  - now inversion H.
  - destruct s as [|c s]; [discriminate | ].
    destruct (Ascii.eqb_spec a c) as [->|]; [ | discriminate].
    now rewrite (IH s H).
Qed.

Lemma hasNamespace_tag (rest : string) : hasNamespace (svgNamespaceTag ++ rest) = true.
Proof. reflexivity. Qed.

(** X14.  The text handed to the browser for download starts with the
    XML prolog line, followed by the serialized source; a source that starts
    with [<svg] always ends up with the namespace attribute found by the
    test of line 159, which is inserted right after [<svg] when the test
    fails; a source that passes the test, or does not start with [<svg], is
    kept as it is; adding the namespace twice is adding it once; with an
    empty reference nothing is downloaded. *)
Theorem downloadSVG_text (source name : string) :
  (exists body,
      downloadSVG (Some source) name = Some (xmlProlog ++ body, name)
      /\ body = addNamespace source
      /\ (forall rest, source = "<svg" ++ rest ->
            hasNamespace body = true
            /\ (hasNamespace source = false -> body = svgNamespaceTag ++ rest))
      /\ (hasNamespace source = true -> body = source)
      /\ (stripPrefix "<svg" source = None -> body = source))
  /\ addNamespace (addNamespace source) = addNamespace source
  /\ downloadSVG None name = None.
Proof.
  split; [ | split; [ | reflexivity ]].
  - exists (addNamespace source).
    split; [reflexivity | split; [reflexivity | split; [ | split ]]].
    + intros rest ->. unfold addNamespace.
      destruct (hasNamespace ("<svg" ++ rest)) eqn:H.
      * split; [exact H | discriminate].
      * rewrite stripPrefix_app. split; [apply hasNamespace_tag | reflexivity].
    + intros H. unfold addNamespace. rewrite H. reflexivity.
    + intros H. unfold addNamespace, hasNamespace. rewrite H. reflexivity.
  - destruct (hasNamespace source) eqn:H.
    + assert (A : addNamespace source = source)
        by (unfold addNamespace; rewrite H; reflexivity).
      now rewrite !A.
    + destruct (stripPrefix "<svg" source) as [rest|] eqn:P.
      * assert (A : addNamespace source = svgNamespaceTag ++ rest)
          by (unfold addNamespace; rewrite H, P; reflexivity).
        rewrite A. unfold addNamespace. rewrite hasNamespace_tag. reflexivity.
      * assert (A : addNamespace source = source)
          by (unfold addNamespace; rewrite H, P; reflexivity).
        now rewrite !A.
Qed.

Example download_adds_namespace :
  downloadSVG (Some "<svg viewBox='0 0 1 1'><g/></svg>") "semagram.svg"
  = Some (xmlProlog ++ svgNamespaceTag ++ " viewBox='0 0 1 1'><g/></svg>",
          "semagram.svg").
Proof. reflexivity. Qed.

Example download_keeps_namespace :
  addNamespace ("<svg width='1' " ++ "xmlns=" ++ quote ++ "http://www.w3.org/2000/svg"
                  ++ quote ++ "/>")
  = "<svg width='1' " ++ "xmlns=" ++ quote ++ "http://www.w3.org/2000/svg"
      ++ quote ++ "/>".
Proof. reflexivity. Qed.

(** ** The rendered semagram *)

Lemma connector_ring_fields {E : Engine} (p : SemagramParams) (i : nat)
      (conns : list Connector) :
  nth_error (connectors (generateSegments p)) i = Some conns ->
  (7 <= length conns)%nat
  /\ Forall (fun c => conn_opacity c = 0.25 + temporality p * 0.25) conns.
Proof.
  intros H. split.
  - pose proof (generate_connector_lengths p) as F. cbv zeta in F.
    rewrite Forall_forall in F. rewrite (F conns (nth_error_In _ _ H)).
    destruct (generate_spokes_candidate p) as [k [Hk Hin]]. rewrite Hk.
    now destruct (candidates_loopCount k Hin).
  - apply Forall_forall. intros c Hc. apply In_nth_error in Hc.
    destruct Hc as [s Hs].
    assert (A : connectorAt (generateSegments p) i s c)
      by (exists conns; split; assumption).
    now destruct (connector_from_draws p i s c A) as (_ & _ & _ & O).
Qed.

(** X15.  In the elements that [SemagramSVG] returns for a generated
    geometry and its parameters: there is one group per connector ring,
    whose lines are the connectors of that ring, one line per connector in
    the same order, each with the coordinates, width and opacity of its
    connector; there is one path per segment, ring by ring in the same
    order, with the path, width, dash and opacity of its segment; every
    connector group takes its opacity from its first line, the fallback 0.3
    is never used since every group holds as many lines as there are
    spokes, at least 7, and the group and all its lines carry the opacity
    [0.25 + 0.25 * temporality]; the halo circle is present exactly when
    the perspective is not the first person, and its radius exceeds that
    of the center node by 6; with the agency in [0,1] the center node has a
    radius in [6, 16] and the halo stays inside the innermost ring. *)
Theorem semagram_elements {E : Engine} (p : SemagramParams) (color : string) :
  let g := generateSegments p in
  let el := SemagramSVG g p color in
  map group_lines (el_connectors el) = map (map (lineOf color)) (connectors g)
  /\ el_rings el = map (map (pathOf color)) (segments g)
  /\ (forall i s c,
        connectorAt g i s c ->
        exists grp,
          nth_error (el_connectors el) i = Some grp
          /\ nth_error (group_lines grp) s = Some (lineOf color c))
  /\ (forall i s seg,
        segmentAt g i s seg ->
        exists ring,
          nth_error (el_rings el) i = Some ring
          /\ nth_error ring s = Some (pathOf color seg))
  /\ (forall i grp,
        nth_error (el_connectors el) i = Some grp ->
        group_opacity grp = 0.25 + temporality p * 0.25
        /\ length (group_lines grp) = spokeLoop (spokes g)
        /\ (7 <= length (group_lines grp))%nat
        /\ Forall (fun l => line_opacity l = group_opacity grp
                            /\ line_stroke l = color) (group_lines grp))
  /\ length (el_connectors el) = length (connectors g)
  /\ map (@length PathEl) (el_rings el) = map (@length Segment) (segments g)
  /\ (el_halo el = None <-> perspective p = P1st)
  /\ (forall halo, el_halo el = Some halo ->
        circle_r halo == circle_r (el_center el) + 6)
  /\ (inUnit (agency p) ->
        6 <= circle_r (el_center el) <= 16
        /\ 0.28 <= circle_opacity (el_center el) <= 0.63
        /\ forall halo, el_halo el = Some halo -> circle_r halo < radiusBase g).
Proof.
  intros g el.
  split; [ | split; [ | split; [ | split; [ | split; [ | split; [ | split;
    [ | split; [ | split ]]]]]]]].
  - unfold el, SemagramSVG. cbn [el_connectors]. rewrite map_map. reflexivity.
  - reflexivity.
  - intros i s c [conns [Hr Hs]]. unfold el, SemagramSVG. cbn [el_connectors].
    eexists. split.
    + rewrite nth_error_map, Hr. reflexivity.
    + cbn [group_lines]. rewrite nth_error_map, Hs. reflexivity.
  - intros i s seg [ring [Hr Hs]]. unfold el, SemagramSVG. cbn [el_rings].
    eexists. split.
    + rewrite nth_error_map, Hr. reflexivity.
    + rewrite nth_error_map, Hs. reflexivity.
  - intros i grp H. unfold el, SemagramSVG in H. cbn [el_connectors] in H.
    rewrite nth_error_map in H.
    destruct (nth_error (connectors g) i) as [conns|] eqn:N; [ | discriminate].
    cbn [option_map] in H. inversion H; subst grp; clear H.
    cbn [group_opacity group_lines].
    destruct (connector_ring_fields p i conns N) as [L F].
    assert (O : firstOpacity conns = 0.25 + temporality p * 0.25).
    { destruct conns as [|c conns]; [cbn in L; lia | ].
      inversion F; subst. assumption. }
    split; [exact O | split; [ | split ]].
    + rewrite length_map.
      pose proof (generate_connector_lengths p) as FL. cbv zeta in FL.
      rewrite Forall_forall in FL. exact (FL conns (nth_error_In _ _ N)).
    + rewrite length_map. exact L.
    + apply Forall_map. eapply Forall_impl; [ | exact F].
      cbn beta. intros c Hc. cbn [lineOf line_opacity line_stroke].
      split; [congruence | reflexivity].
  - unfold el, SemagramSVG. cbn [el_connectors]. apply length_map.
  - unfold el, SemagramSVG. cbn [el_rings]. rewrite map_map.
    apply map_ext. intros ring. apply length_map.
  - unfold el, SemagramSVG. cbn [el_halo].
    destruct (perspective p); cbn; split; intros H;
      first [reflexivity | discriminate].
  - intros halo H. unfold el, SemagramSVG in *. cbn [el_halo el_center circle_r] in *.
    destruct (isFirstPerson (perspective p)); [discriminate | ].
    inversion H. cbn [circle_r]. unfold lerp. ring.
  - intros Ha. unfold inUnit in Ha. unfold el, SemagramSVG.
    cbn [el_halo el_center circle_r circle_opacity].
    split; [apply lerp_range; [discriminate | exact Ha] | ].
    split; [lra | ].
    intros halo H. destruct (isFirstPerson (perspective p)); [discriminate | ].
    inversion H. cbn [circle_r].
    pose proof (lerp_range 12 22 (agency p) ltac:(discriminate) Ha) as R.
    change (radiusBase g) with 100. lra.
Qed.

(** ** More on composite and blend mode *)

Lemma indexText_injective (i j : nat) : indexText i = indexText j -> i = j.
Proof.
  unfold indexText. intros H.
  apply (f_equal NilEmpty.uint_of_string) in H.
  rewrite !NilEmpty.usu in H. inversion H as [H'].
  apply (f_equal Nat.of_uint) in H'.
  now rewrite !DecimalNat.Unsigned.of_to in H'.
Qed.

Lemma append_injective_l (a b c : string) : a ++ b = a ++ c -> b = c.
Proof. induction a as [|x a IH]; cbn; intros H; [exact H | inversion H; auto]. Qed.

Lemma palette_cycle (i : nat) :
  In (nth (i mod length palette) palette "") palette.
Proof.
  apply nth_In. apply Nat.mod_upper_bound. discriminate.
Qed.

(** X16.  Layer [i] of a composite rendering shows the geometry generated
    from its own parameters, which are those of the request with clause
    [i] as proposition and the seed text extended by [:] and the decimal
    index; so two layers never share a seed text.  Its colour is entry
    [i mod 5] of the palette, hence one of its five colours, repeating
    every five layers.  The
    rotations grow strictly with the index and stay in [0, 360/7) degrees.
    A layer has a positive opacity exactly up to index 14 and a positive
    scale exactly up to index 16. *)
Theorem composite_layer_details {E : Engine} (p : SemagramParams) :
  let n := length (clausesOf (proposition p)) in
  let layers := renderComposite p in
  (forall i layer,
      nth_error layers i = Some layer ->
      layer_glyph layer = generateSegments (layer_params layer)
      /\ (exists clause,
            nth_error (clausesOf (proposition p)) i = Some clause
            /\ proposition (layer_params layer) = clause
            /\ layer_params layer = clauseParams p clause i)
      /\ sameVector (layer_params layer) p
      /\ seed (layer_params layer) = seed p ++ ":" ++ indexText i
      /\ layer_color layer = nth (i mod 5) palette ""
      /\ In (layer_color layer) palette
      /\ 0 <= layer_rotate layer < 360 / 7
      /\ (0 < layer_opacity layer <-> (i <= 14)%nat)
      /\ (exists sc, layer_scale layer = Some sc /\ (0 < sc <-> (i <= 16)%nat)))
  /\ (forall i j li lj,
        nth_error layers i = Some li -> nth_error layers j = Some lj ->
        (i < j)%nat ->
        layer_rotate li < layer_rotate lj
        /\ seed (layer_params li) <> seed (layer_params lj))
  /\ (forall i li lj,
        nth_error layers i = Some li -> nth_error layers (i + 5) = Some lj ->
        layer_color li = layer_color lj).
Proof.
  intros n layers.
  assert (Rot : forall i layer, nth_error layers i = Some layer ->
                 (i < n)%nat /\ layer_rotate layer == ofNat i * (360 / (7 * ofNat n))).
  { intros i layer H. apply renderComposite_nth in H. fold n in H.
    destruct H as [clause [Hc ->]].
    assert (Hi : (i < n)%nat) by (apply nth_error_Some; rewrite Hc; discriminate).
    split; [exact Hi | apply compositeLayer_rotate; lia]. }
  assert (Pos : forall i, 0 <= ofNat i).
  { intros i. unfold ofNat. change 0 with (inject_Z 0). rewrite <- Zle_Qle. lia. }
  split; [ | split ].
  - intros i layer H. destruct (Rot i layer H) as [Hi R].
    apply renderComposite_nth in H. fold n in H. destruct H as [clause [Hc ->]].
    cbn [compositeLayer layer_glyph layer_params layer_color layer_opacity
         layer_scale clauseParams seed].
    split; [reflexivity | ].
    split; [exists clause; repeat split; exact Hc | ].
    split; [repeat split | ]. split; [reflexivity | ].
    split; [reflexivity | ].
    split; [apply palette_cycle | ].
    assert (N : 0 < ofNat n) by (apply ofNat_pos; lia).
    assert (I : ofNat i + 1 <= ofNat n).
    { unfold ofNat. change 1 with (inject_Z 1). rewrite <- inject_Z_plus.
      rewrite <- Zle_Qle. lia. }
    split.
    { rewrite R. split.
      - apply Qmult_le_0_compat; [apply Pos | ].
        apply Qle_shift_div_l; lra.
      - setoid_replace (ofNat i * (360 / (7 * ofNat n)))
          with ((ofNat i / ofNat n) * (360 / 7)) by (field; lra).
        assert (Q1 : ofNat i / ofNat n < 1) by (apply Qlt_shift_div_r; lra).
        setoid_replace (360 / 7) with (1 * (360 / 7)) at 2 by ring.
        apply Qmult_lt_compat_r; [reflexivity | exact Q1]. }
    split.
    { unfold compositeOpacity, ofNat. split; intros H.
      - assert (T : inject_Z (Z.of_nat i) < inject_Z 15).
        { change (inject_Z 15) with 15. lra. }
        rewrite <- Zlt_Qlt in T. lia.
      - assert (T : inject_Z (Z.of_nat i) <= inject_Z 14)
          by (rewrite <- Zle_Qle; lia).
        change (inject_Z 14) with 14 in T. lra. }
    { exists (compositeScale i). split; [reflexivity | ].
      unfold compositeScale, ofNat. split; intros H.
      - assert (T : inject_Z (Z.of_nat i) < inject_Z 17).
        { change (inject_Z 17) with 17. lra. }
        rewrite <- Zlt_Qlt in T. lia.
      - assert (T : inject_Z (Z.of_nat i) <= inject_Z 16)
          by (rewrite <- Zle_Qle; lia).
        change (inject_Z 16) with 16 in T. lra. }
  - intros i j li lj Hi Hj Hij.
    destruct (Rot i li Hi) as [Bi Ri]. destruct (Rot j lj Hj) as [Bj Rj].
    apply renderComposite_nth in Hi, Hj. fold n in Hi, Hj.
    destruct Hi as [ci [_ ->]]. destruct Hj as [cj [_ ->]].
    split.
    + rewrite Ri, Rj.
      assert (N : 0 < ofNat n) by (apply ofNat_pos; lia).
      assert (S : 0 < 360 / (7 * ofNat n)) by (apply Qlt_shift_div_l; lra).
      assert (I : ofNat i + 1 <= ofNat j).
      { unfold ofNat. change 1 with (inject_Z 1). rewrite <- inject_Z_plus.
        rewrite <- Zle_Qle. lia. }
      nra.
    + cbn [compositeLayer layer_params clauseParams seed]. intros H.
      apply append_injective_l in H. apply (append_injective_l ":") in H.
      apply indexText_injective in H. lia.
  - intros i li lj Hi Hj.
    apply renderComposite_nth in Hi, Hj.
    destruct Hi as [ci [_ ->]]. destruct Hj as [cj [_ ->]].
    cbn [compositeLayer layer_color]. f_equal.
    change (length palette) with 5%nat.
    replace (i + 5)%nat with (i + 1 * 5)%nat by lia.
    now rewrite Nat.Div0.mod_add.
Qed.

(** ** The clauses of a text *)

Lemma chars_string_of_list (l : list ascii) : chars (string_of_list_ascii l) = l.
Proof. apply list_ascii_of_string_of_list_ascii. Qed.

Lemma chars_reverse (s : string) : chars (reverse s) = rev (chars s).
Proof. unfold reverse. apply chars_string_of_list. Qed.

Lemma chars_injective (a b : string) : chars a = chars b -> a = b.
Proof.
  intros H. apply (f_equal string_of_list_ascii) in H.
  unfold chars in H. now rewrite !string_of_list_ascii_of_string in H.
Qed.

Lemma trimStart_split (s : string) :
  exists w, chars s = (w ++ chars (trimStart s))%list.
Proof.
  induction s as [|c s [w IH]].
  - exists []. reflexivity.
  - cbn [trimStart]. destruct (isWhiteSpace c).
    + exists (c :: w). cbn. f_equal. exact IH.
    + exists []. reflexivity.
Qed.

Lemma trimStart_head (s : string) (c : ascii) (l : list ascii) :
  chars (trimStart s) = c :: l -> isWhiteSpace c = false.
Proof.
  induction s as [|a s IH]; cbn [trimStart]; [discriminate | ].
  destruct (isWhiteSpace a) eqn:W; [exact IH | ].
  intros H. inversion H. now subst.
Qed.

Lemma trimStart_fixed (s : string) (c : ascii) (l : list ascii) :
  chars s = c :: l -> isWhiteSpace c = false -> trimStart s = s.
Proof.
  destruct s as [|a s]; [discriminate | ]. intros H W. inversion H; subst.
  cbn [trimStart]. now rewrite W.
Qed.

Lemma hd_rev_last (l : list ascii) (c d : ascii) (m : list ascii) :
  rev l = c :: m -> last l d = c.
Proof.
  intros H. apply (f_equal (@rev ascii)) in H. rewrite rev_involutive in H.
  subst l. cbn [rev]. apply last_last.
Qed.

(** What [trim] returns is a piece of its argument that neither starts nor
    ends with white space. *)
Lemma trim_spec (s : string) :
  (exists w1 w2, chars s = (w1 ++ chars (trim s) ++ w2)%list)
  /\ (forall c l, chars (trim s) = c :: l ->
        isWhiteSpace c = false /\ isWhiteSpace (last (c :: l) c) = false).
Proof.
  unfold trim. set (t := trimStart s). set (u := trimStart (reverse t)).
  destruct (trimStart_split s) as [w1 H1]. fold t in H1.
  destruct (trimStart_split (reverse t)) as [w2 H2]. fold u in H2.
  rewrite chars_reverse in H2.
  assert (T : chars t = (rev (chars u) ++ rev w2)%list).
  { apply (f_equal (@rev ascii)) in H2. rewrite rev_involutive, rev_app_distr in H2.
    exact H2. }
  rewrite chars_reverse. split.
  - exists w1, (rev w2). now rewrite H1, T.
  - intros c l H. split.
    + rewrite H in T. cbn in T. exact (trimStart_head s c _ T).
    + destruct (chars u) as [|a U] eqn:HU.
      * cbn in H. discriminate.
      * rewrite <- H. rewrite (hd_rev_last (rev (a :: U)) a c U).
        -- exact (trimStart_head (reverse t) a U HU).
        -- apply rev_involutive.
Qed.

Lemma trim_fixed (s : string) (c : ascii) (l : list ascii) :
  chars s = c :: l -> isWhiteSpace c = false ->
  isWhiteSpace (last (c :: l) c) = false -> trim s = s.
Proof.
  intros H W1 W2. unfold trim.
  rewrite (trimStart_fixed s c l H W1).
  assert (R : exists m, chars (reverse s) = last (c :: l) c :: m).
  { rewrite chars_reverse, H.
    destruct (rev (c :: l)) as [|a m] eqn:Rv.
    - apply (f_equal (@length ascii)) in Rv. rewrite length_rev in Rv.
      discriminate.
    - exists m. f_equal. symmetry. now apply (hd_rev_last (c :: l) a c m). }
  destruct R as [m R].
  rewrite (trimStart_fixed (reverse s) _ m R W2).
  apply chars_injective. rewrite !chars_reverse. apply rev_involutive.
Qed.

Lemma splitNewlines_pieces (s : string) (cur : list ascii) (inSep : bool)
      (piece : string) :
  Forall (fun c => isNewline c = false) cur ->
  In piece (splitNewlines s cur inSep) ->
  Forall (fun c => isNewline c = false) (chars piece).
Proof.
  revert cur inSep. induction s as [|c s IH]; intros cur inSep Hcur Hin.
  - destruct Hin as [<- | []]. rewrite chars_string_of_list.
    now apply Forall_rev.
  - cbn [splitNewlines] in Hin. destruct (isNewline c) eqn:N.
    + destruct inSep.
      * apply (IH [] true); [constructor | exact Hin].
      * destruct Hin as [<- | Hin].
        -- rewrite chars_string_of_list. now apply Forall_rev.
        -- apply (IH [] true); [constructor | exact Hin].
    + apply (IH (c :: cur) false); [constructor; assumption | exact Hin].
Qed.

(** X17.  Every clause of a text is non-empty, contains no newline,
    neither starts nor ends with white space, and is left unchanged by
    [trim]. *)
Theorem clauses_are_trimmed (text clause : string) :
  In clause (clausesOf text) ->
  clause <> ""
  /\ Forall (fun c => isNewline c = false) (chars clause)
  /\ (forall c l, chars clause = c :: l ->
        isWhiteSpace c = false /\ isWhiteSpace (last (c :: l) c) = false)
  /\ trim clause = clause.
Proof.
  unfold clausesOf. intros H. apply filter_In in H. destruct H as [Hin Hne].
  apply in_map_iff in Hin. destruct Hin as [piece [<- Hp]].
  destruct (trim_spec piece) as [[w1 [w2 Sub]] Ends].
  split; [ | split; [ | split ]].
  - intros E. rewrite E in Hne. discriminate.
  - pose proof (splitNewlines_pieces _ _ _ _ (Forall_nil _) Hp) as F.
    rewrite Sub in F. apply Forall_app in F. destruct F as [_ F].
    apply Forall_app in F. now destruct F.
  - exact Ends.
  - destruct (chars (trim piece)) as [|c l] eqn:C.
    + apply chars_injective. rewrite C.
      assert (T : trim piece = "") by (apply chars_injective; exact C).
      rewrite T in Hne. discriminate.
    + destruct (Ends c l eq_refl) as [W1 W2].
      exact (trim_fixed _ c l C W1 W2).
Qed.

Lemma clauses_are_trimmed_witness :
  In "B c" (clausesOf (" A " ++ newline ++ newline ++ "  B c  "))
  /\ trim "B c" = "B c".
Proof.
  assert (H : In "B c" (clausesOf (" A " ++ newline ++ newline ++ "  B c  ")))
    by (vm_compute; tauto).
  split; [exact H | ].
  exact (proj2 (proj2 (proj2 (clauses_are_trimmed _ _ H)))).
Defined.

Lemma splitNewlines_sep_flag (s : string) :
  filter isNonEmpty (map trim (splitNewlines s [] true))
  = filter isNonEmpty (map trim (splitNewlines s [] false)).
Proof.
  destruct s as [|c s]; [reflexivity | ].
  cbn [splitNewlines]. destruct (isNewline c); reflexivity.
Qed.

Lemma splitNewlines_join (a b : string) (cur : list ascii) (inSep : bool) :
  (inSep = true -> cur = []) ->
  filter isNonEmpty (map trim (splitNewlines (a ++ newline ++ b) cur inSep))
  = (filter isNonEmpty (map trim (splitNewlines a cur inSep))
     ++ filter isNonEmpty (map trim (splitNewlines b [] false)))%list.
Proof.
  revert cur inSep. induction a as [|c a IH]; intros cur inSep Inv.
  - cbn [append newline splitNewlines]. change (isNewline "010"%char) with true.
    cbn iota. destruct inSep.
    + rewrite (Inv eq_refl). cbn [rev string_of_list_ascii map filter trim].
      change (isNonEmpty (trim "")) with false. cbn iota. cbn [app].
      apply splitNewlines_sep_flag.
    + cbn [map filter]. destruct (isNonEmpty (trim (string_of_list_ascii (rev cur))));
        cbn [app]; [f_equal | ]; apply splitNewlines_sep_flag.
  - cbn [append splitNewlines]. destruct (isNewline c).
    + destruct inSep.
      * apply IH. reflexivity.
      * cbn [map filter].
        destruct (isNonEmpty (trim (string_of_list_ascii (rev cur))));
          cbn [app]; [f_equal | ]; apply IH; reflexivity.
    + apply IH. discriminate.
Qed.

Lemma trimStart_blank (s : string) :
  Forall (fun c => isWhiteSpace c = true) (chars s) -> trimStart s = "".
Proof.
  induction s as [|c s IH]; [reflexivity | ]. cbn. intros H.
  inversion H as [|? ? W F]; subst. cbn [trimStart]. rewrite W. now apply IH.
Qed.

Lemma splitNewlines_blank (s : string) (cur : list ascii) (inSep : bool)
      (piece : string) :
  Forall (fun c => isWhiteSpace c = true) cur ->
  Forall (fun c => isWhiteSpace c = true) (chars s) ->
  In piece (splitNewlines s cur inSep) ->
  Forall (fun c => isWhiteSpace c = true) (chars piece).
Proof.
  revert cur inSep. induction s as [|c s IH]; intros cur inSep Hcur Hs Hin.
  - destruct Hin as [<- | []]. rewrite chars_string_of_list.
    now apply Forall_rev.
  - cbn in Hs. inversion Hs as [|? ? W F]; subst.
    cbn [splitNewlines] in Hin. destruct (isNewline c).
    + destruct inSep.
      * apply (IH [] true); [constructor | exact F | exact Hin].
      * destruct Hin as [<- | Hin].
        -- rewrite chars_string_of_list. now apply Forall_rev.
        -- apply (IH [] true); [constructor | exact F | exact Hin].
    + apply (IH (c :: cur) false); [constructor; assumption | exact F | exact Hin].
Qed.

(** X18.  The clauses of two texts joined by a newline are the clauses of
    the first followed by those of the second.  A text of white space only
    (the empty text included) has no clause, and composite mode then
    renders no layer at all. *)
Theorem clauses_compose {E : Engine} (text1 text2 : string) :
  clausesOf (text1 ++ newline ++ text2)
  = (clausesOf text1 ++ clausesOf text2)%list
  /\ (Forall (fun c => isWhiteSpace c = true) (chars text1) ->
        clausesOf text1 = [])
  /\ (forall p, clausesOf (proposition p) = [] -> renderComposite p = []).
Proof.
  split; [ | split ].
  - unfold clausesOf. apply splitNewlines_join. discriminate.
  - intros B. unfold clausesOf.
    destruct (filter isNonEmpty (map trim (splitNewlines text1 [] false)))
      as [|x xs] eqn:F; [reflexivity | ].
    assert (Hx : In x (filter isNonEmpty (map trim (splitNewlines text1 [] false))))
      by (rewrite F; left; reflexivity).
    apply filter_In in Hx. destruct Hx as [Hin Hne].
    apply in_map_iff in Hin. destruct Hin as [piece [<- Hp]].
    pose proof (splitNewlines_blank _ _ _ _ (Forall_nil _) B Hp) as W.
    unfold trim in Hne. rewrite (trimStart_blank piece W) in Hne.
    discriminate Hne.
  - intros p H. unfold renderComposite. cbv zeta. rewrite H. reflexivity.
Qed.

Example blank_text_renders_nothing :
  @renderComposite polyEngine (request ("  " ++ newline ++ newline ++ " ") "arrival")
  = [].
Proof. reflexivity. Qed.

(** ** Blend scene and reachable states *)

(** X19.  In blend mode the opacities of the two layers always add up to
    1.35 and are equal exactly at the weight 0.5; the layers are rotated by
    -15 and 15 degrees and show the geometries of the two requests,
    whatever the weight; the shared center node has the same radius when
    the two requests are exchanged, a radius in [8, 18] for agencies in
    [0,1] and an opacity in [0.25, 0.6] for a weight in [0,1]. *)
Theorem blend_scene_balance {E : Engine} (p p2 : SemagramParams) (blend : Q) :
  let scene := renderBlend p p2 blend in
  layer_opacity (blend_A scene) + layer_opacity (blend_B scene) == 1.35
  /\ (layer_opacity (blend_A scene) == layer_opacity (blend_B scene)
      <-> blend == 0.5)
  /\ layer_rotate (blend_A scene) = -15
  /\ layer_rotate (blend_B scene) = 15
  /\ layer_glyph (blend_A scene) = generateSegments p
  /\ layer_glyph (blend_B scene) = generateSegments p2
  /\ center_r scene == center_r (renderBlend p2 p blend)
  /\ (inUnit (agency p) -> inUnit (agency p2) -> 8 <= center_r scene <= 18)
  /\ (inUnit blend -> 0.25 <= center_opacity scene <= 0.6).
Proof.
  intros scene. unfold scene, renderBlend, inUnit.
  cbn [blend_A blend_B layer_opacity layer_rotate layer_glyph center_r center_opacity].
  split; [ring | ]. split; [split; intros H; lra | ].
  repeat (split; [reflexivity | ]).
  split; [unfold lerp; field | ].
  split; [ | intros H; lra].
  intros H1 H2. apply lerp_range; [discriminate | ]. split.
  - apply Qle_shift_div_l; lra.
  - apply Qle_shift_div_r; lra.
Qed.

Lemma sliderValue_unit (k : nat) : (k <= 100)%nat -> inUnit (sliderValue k).
Proof.
  intros H. unfold inUnit, sliderValue.
  assert (A : 0 <= ofNat k <= 100).
  { unfold ofNat. change 0 with (inject_Z 0). change 100 with (inject_Z 100).
    rewrite <- !Zle_Qle. lia. }
  split; [apply Qle_shift_div_l | apply Qle_shift_div_r]; lra.
Qed.

Lemma initialState_wellFormed : wellFormed initialState.
Proof.
  unfold wellFormed, inUnit. cbn.
  repeat split; discriminate.
Qed.

Lemma handle_wellFormed (st st' : UiState) (ev : Event) :
  wellFormed st -> handle st ev = Some st' -> wellFormed st'.
Proof.
  unfold wellFormed, sameVector.
  intros (V & C & M & T & A & Em & B) H.
  destruct ev; cbn [handle] in H.
  - inversion H; subst; tauto.
  - inversion H; subst; tauto.
  - inversion H; subst; cbn; tauto.
  - inversion H; subst. apply initialState_wellFormed.
  - inversion H; subst; cbn; tauto.
  - inversion H; subst; cbn; tauto.
  - destruct (isBlend (ui_mode st)); [ | discriminate].
    inversion H; subst; cbn; tauto.
  - destruct (isBlend (ui_mode st)); [ | discriminate].
    destruct (Nat.leb_spec k 100) as [L|L]; [ | discriminate]. cbn [andb] in H.
    pose proof (sliderValue_unit k L) as U.
    inversion H; subst; cbn; tauto.
  - destruct (Nat.leb_spec k 100) as [L|L]; [ | discriminate].
    pose proof (sliderValue_unit k L) as U.
    inversion H; subst; destruct which; cbn; tauto.
  - inversion H; subst; cbn; tauto.
  - inversion H; subst; cbn; tauto.
  - inversion H; subst; cbn; tauto.
  - inversion H; subst; cbn; tauto.
Qed.

(** X20.  In every state the page can reach from its initial state, the
    second request still carries the default parameter vector (no control
    edits it: only its proposition and its seed text change), the five
    sliders of the first request are in [0,1], and so is the blend
    weight. *)
Theorem reachable_states_wellFormed (events : list Event) (st : UiState) :
  run initialState events = Some st ->
  sameVector (ui_p2 st) defaultParams
  /\ inUnit (certainty (ui_p st))
  /\ inUnit (modality (ui_p st))
  /\ inUnit (temporality (ui_p st))
  /\ inUnit (agency (ui_p st))
  /\ inUnit (emphasis (ui_p st))
  /\ inUnit (ui_blend st).
Proof.
  assert (G : forall evs s0, wellFormed s0 -> run s0 evs = Some st -> wellFormed st).
  { induction evs as [|ev evs IH]; intros s0 W H.
    - inversion H. now subst.
    - cbn [run] in H. destruct (handle s0 ev) as [s1|] eqn:Hd; [ | discriminate].
      apply (IH s1); [ | exact H]. exact (handle_wellFormed s0 s1 ev W Hd). }
  intros H. exact (G events initialState initialState_wellFormed H).
Qed.

Lemma reachable_states_wellFormed_witness :
  exists st,
    run initialState
        [ClickMode MBlend; MoveSlider Temporality 15; MoveBlend 80;
         EditPropositionB "the cat sat"; ClickRandomize "k3x9" "q7w1";
         CheckNegation true]
    = Some st
    /\ sameVector (ui_p2 st) defaultParams
    /\ inUnit (temporality (ui_p st)).
Proof.
  eexists. split; [reflexivity | ].
  destruct (reachable_states_wellFormed
              [ClickMode MBlend; MoveSlider Temporality 15; MoveBlend 80;
               EditPropositionB "the cat sat"; ClickRandomize "k3x9" "q7w1";
               CheckNegation true] _ eq_refl)
    as (V & _ & _ & T & _).
  split; assumption.
Defined.

(** X21.  In every state the page can reach, every semagram on the canvas
    shows the geometry generated from the parameters it is rendered with,
    and these parameters have their five sliders in [0,1]; single mode
    shows one semagram, blend mode two, composite mode one per clause. *)
Theorem canvas_semagrams {E : Engine} (events : list Event) (st : UiState) :
  run initialState events = Some st ->
  Forall (fun gp => fst gp = generateSegments (snd gp) /\ slidersInRange (snd gp))
         (shown (canvas st))
  /\ length (shown (canvas st))
     = match ui_mode st with
       | MSingle => 1%nat
       | MComposite => length (clausesOf (proposition (ui_p st)))
       | MBlend => 2%nat
       end.
Proof.
  intros H.
  assert (W : wellFormed st).
  { revert H. generalize initialState_wellFormed. generalize initialState.
    induction events as [|ev evs IH]; intros s0 W0 H.
    - inversion H. now subst.
    - cbn [run] in H. destruct (handle s0 ev) as [s1|] eqn:Hd; [ | discriminate].
      apply (IH s1); [exact (handle_wellFormed s0 s1 ev W0 Hd) | exact H]. }
  destruct W as (V & C & M & T & A & Em & B).
  assert (P : slidersInRange (ui_p st)) by (unfold slidersInRange; tauto).
  assert (P2 : slidersInRange (ui_p2 st)).
  { destruct V as (Vc & Vm & Vt & Va & _ & _ & _ & Ve).
    unfold slidersInRange. rewrite Vc, Vm, Vt, Va, Ve.
    unfold inUnit. cbn. repeat split; discriminate. }
  unfold canvas. destruct (ui_mode st); cbn [shown].
  - split; [ | reflexivity].
    apply Forall_cons; [split; [reflexivity | exact P] | apply Forall_nil].
  - split.
    + apply Forall_map. apply Forall_forall. intros layer Hl.
      apply In_nth_error in Hl. destruct Hl as [i Hi].
      apply renderComposite_nth in Hi. destruct Hi as [clause [_ ->]].
      cbn [fst snd compositeLayer layer_glyph layer_params].
      split; [reflexivity | exact P].
    + rewrite length_map. unfold renderComposite. cbv zeta. apply mapi_length.
  - split; [ | reflexivity].
    cbn [renderBlend blend_A blend_B layer_glyph layer_params].
    apply Forall_cons; [split; [reflexivity | exact P] | ].
    apply Forall_cons; [split; [reflexivity | exact P2] | apply Forall_nil].
Qed.

Lemma canvas_semagrams_witness :
  exists st,
    run initialState
        [ClickMode MComposite;
         EditProposition ("time folds" ++ newline ++ "she returns");
         MoveSlider Agency 100]
    = Some st
    /\ length (shown (@canvas polyEngine st)) = 2%nat.
Proof.
  eexists. split; [reflexivity | ].
  exact (proj2 (@canvas_semagrams polyEngine
                  [ClickMode MComposite;
                   EditProposition ("time folds" ++ newline ++ "she returns");
                   MoveSlider Agency 100] _ eq_refl)).
Defined.
